(** * axis3d shader module system: ShaderLib, ShaderLibPreprocessor, Shader

    A shallow embedding of [src/core/shader.js] and the properties of its
    compile pipeline, define table and per-frame recompilation decision. *)

From Stdlib Require Import Strings.String Strings.Ascii NArith ZArith List Lia.
From Stdlib Require Import HexadecimalString DecimalString.
From stdpp Require Import base option list strings gmap.

Import ListNotations.
Local Open Scope string_scope.
Local Open Scope list_scope.

(** ** JavaScript strings

    A JS string is a sequence of code units.  Shader text is modelled with
    the code units below 256 ([ascii]); the functions that walk a string work
    on [list ascii]. *)

Module JS.

Definition chars (s : string) : list ascii := list_ascii_of_string s.
Definition str (l : list ascii) : string := string_of_list_ascii l.

Definition code (c : ascii) : N := N_of_ascii c.

(** [\s] of a JS regular expression and the white space of [trim],
    restricted to code units below 256: TAB, LF, VT, FF, CR, SPACE, NBSP. *)
Definition isSpace (c : ascii) : bool :=
  match code c with
  | 9 | 10 | 11 | 12 | 13 | 32 | 160 => true
  | _ => false
  end%N.

(** Line terminators, which [.] never matches. *)
Definition isLineTerminator (c : ascii) : bool :=
  match code c with
  | 10 | 13 => true
  | _ => false
  end%N.

Fixpoint trimStart (l : list ascii) : list ascii :=
  match l with
  | c :: l' => if isSpace c then trimStart l' else l
  | [] => []
  end.

Definition trimEnd (l : list ascii) : list ascii := rev (trimStart (rev l)).

(** [String.prototype.trim] *)
Definition trim (l : list ascii) : list ascii := trimEnd (trimStart l).

(** [s.split(sep)] for a one-character separator: never the empty array. *)
Fixpoint split (sep : ascii) (l : list ascii) : list (list ascii) :=
  match l with
  | [] => [[]]
  | c :: l' =>
      if Ascii.eqb c sep then [] :: split sep l'
      else match split sep l' with
           | cur :: more => (c :: cur) :: more
           | [] => [[c]]
           end
  end.

(** [lines.join(sep)] *)
Fixpoint join (sep : list ascii) (ls : list (list ascii)) : list ascii :=
  match ls with
  | [] => []
  | [x] => x
  | x :: more => x ++ sep ++ join sep more
  end.

Fixpoint stripPrefix (p l : list ascii) : option (list ascii) :=
  match p, l with
  | [], _ => Some l
  | a :: p', b :: l' => if Ascii.eqb a b then stripPrefix p' l' else None
  | _ :: _, [] => None
  end.

(** [s.replace(pat, by)] with a string pattern: the first occurrence only. *)
Fixpoint replaceStr (pat by_ l : list ascii) : list ascii :=
  match stripPrefix pat l with
  | Some rest => by_ ++ rest
  | None => match l with
            | [] => []
            | c :: l' => c :: replaceStr pat by_ l'
            end
  end.

(** [n.toString(16)] for a non-negative integer. *)
Definition toString16 (n : N) : string :=
  HexadecimalString.NilZero.string_of_uint (N.to_hex_uint n).

(** [String(n)] for an integer-valued number. *)
Definition ofInt (z : Z) : string :=
  DecimalString.NilZero.string_of_int (Z.to_int z).

(** Truthiness of a string: only the empty string is falsy. *)
Definition truthy (s : string) : bool :=
  match s with EmptyString => false | _ => true end.

End JS.

(** ** Regular expressions

    The patterns of the source are kept as data and run by a backtracking
    matcher with the order of preference of the JS engine: leftmost start,
    greedy [?], [*] and [+], an iteration of [*] that consumes nothing is
    refused. *)

Module Re.

Inductive citem : Type :=
| CChr (c : ascii)                (* a character of a class *)
| CRange (lo hi : ascii)          (* lo-hi *)
| CSpace.                         (* \s *)

Inductive regex : Type :=
| Lit (s : string)                (* literal text *)
| Set_ (cs : list citem)          (* [...] *)
| Dot                             (* . *)
| Seq (r1 r2 : regex)
| Opt (r : regex)                 (* r? *)
| Star (r : regex)                (* r* *)
| Plus (r : regex)                (* r+ *)
| Grp (i : nat) (r : regex)       (* capture group number i *)
| Bol                             (* ^ *)
| Eol.                            (* $ *)

Definition caps : Type := list (nat * list ascii).

Definition inItem (c : ascii) (it : citem) : bool :=
  match it with
  | CChr x => Ascii.eqb c x
  | CRange lo hi => (JS.code lo <=? JS.code c)%N && (JS.code c <=? JS.code hi)%N
  | CSpace => JS.isSpace c
  end.

Definition inClass (cs : list citem) (c : ascii) : bool := existsb (inItem c) cs.

Section Matcher.
Context {R : Type}.
(** length of the whole subject, for [^] *)
Variable total : nat.

Definition cont : Type := list ascii -> caps -> option R.

Fixpoint star (step : list ascii -> caps -> cont -> option R)
         (n : nat) (s : list ascii) (cs : caps) (k : cont) : option R :=
  match n with
  | O => k s cs
  | S n' =>
      match step s cs (fun s' cs' =>
               if (length s' <? length s)%nat then star step n' s' cs' k
               else None) with
      | Some x => Some x
      | None => k s cs
      end
  end.

Fixpoint m (r : regex) (s : list ascii) (cs : caps) (k : cont) {struct r}
  : option R :=
  match r with
  | Lit l =>
      match JS.stripPrefix (JS.chars l) s with
      | Some s' => k s' cs
      | None => None
      end
  | Set_ items =>
      match s with
      | c :: s' => if inClass items c then k s' cs else None
      | [] => None
      end
  | Dot =>
      match s with
      | c :: s' => if JS.isLineTerminator c then None else k s' cs
      | [] => None
      end
  | Seq r1 r2 => m r1 s cs (fun s' cs' => m r2 s' cs' k)
  | Opt r1 =>
      match m r1 s cs k with
      | Some x => Some x
      | None => k s cs
      end
  | Star r1 => star (m r1) (length s) s cs k
  | Plus r1 => m r1 s cs (fun s' cs' => star (m r1) (length s') s' cs' k)
  | Grp i r1 =>
      m r1 s cs (fun s' cs' =>
        k s' ((i, firstn (length s - length s') s) :: cs'))
  | Bol => if (length s =? total)%nat then k s cs else None
  | Eol => match s with [] => k s cs | _ :: _ => None end
  end.
End Matcher.

Record result : Type := mkResult {
  index : nat;                    (* where the match starts *)
  matched : list ascii;           (* match[0] *)
  groups : caps;
  after : list ascii              (* the subject behind the match *)
}.

Definition group (i : nat) (r : result) : option (list ascii) :=
  snd <$> find (fun p => Nat.eqb (fst p) i) (groups r).

Fixpoint search (total : nat) (r : regex) (pre : nat) (s : list ascii)
  : option result :=
  match m total r s [] (fun s' cs =>
          Some (mkResult pre (firstn (length s - length s') s) cs s')) with
  | Some x => Some x
  | None =>
      match s with
      | [] => None
      | _ :: s' => search total r (S pre) s'
      end
  end.

(** [r.exec(s)] / [s.match(r)] without the [g] flag. *)
Definition exec (r : regex) (s : list ascii) : option result :=
  search (length s) r 0 s.

(** [r.test(s)] *)
Definition test (r : regex) (s : list ascii) : bool :=
  match exec r s with Some _ => true | None => false end.

(** [s.replace(r, by)] without the [g] flag; [by_] sees the match. *)
Definition replace (r : regex) (by_ : result -> list ascii) (s : list ascii)
  : list ascii :=
  match exec r s with
  | Some res => firstn (index res) s ++ by_ res ++ after res
  | None => s
  end.

(** [s.replace(r, by)] with the [g] flag: every match, left to right; after
    an empty match the engine moves one character on. *)
Fixpoint replaceAllFrom (total : nat) (r : regex) (by_ : list ascii)
         (fuel : nat) (s : list ascii) : list ascii :=
  match fuel with
  | O => s
  | S fuel' =>
      match search total r 0 s with
      | None => s
      | Some res =>
          firstn (index res) s ++ by_ ++
          match matched res, after res with
          | [], c :: rest' => c :: replaceAllFrom total r by_ fuel' rest'
          | [], [] => []
          | _ :: _, rest' => replaceAllFrom total r by_ fuel' rest'
          end
      end
  end.

Definition replaceAll (r : regex) (by_ : list ascii) (s : list ascii)
  : list ascii :=
  replaceAllFrom (length s) r by_ (S (length s)) s.

End Re.

(** ** POSIX paths: [dirname], [extname] and [resolve] of the [path] module *)

Module Path.

Definition slash : ascii := "/"%char.
Definition dot : ascii := "."%char.

Definition isSlash (c : ascii) : bool := Ascii.eqb c slash.

Fixpoint dropSlashes (l : list ascii) : list ascii :=
  match l with
  | c :: l' => if isSlash c then dropSlashes l' else l
  | [] => []
  end.

Fixpoint dropToSlash (l : list ascii) : list ascii :=
  match l with
  | c :: l' => if isSlash c then l else dropToSlash l'
  | [] => []
  end.

Fixpoint takeToSlash (l : list ascii) : list ascii :=
  match l with
  | c :: l' => if isSlash c then [] else c :: takeToSlash l'
  | [] => []
  end.

(** [dirname(p)]: the text before the last slash that is followed by a
    name; [.] (or [/]) when there is none. *)
Definition dirname (p : string) : string :=
  match JS.chars p with
  | [] => "."
  | c0 :: tl =>
      (* scanned from the end, over the characters behind the first *)
      match dropToSlash (dropSlashes (rev tl)) with
      | [] => if isSlash c0 then "/" else "."
      | _ :: before =>
          if isSlash c0 && (length before =? 0)%nat then "//"
          else JS.str (c0 :: rev before)
      end
  end.

Fixpoint lastDot (l : list ascii) (i : nat) (found : option nat) : option nat :=
  match l with
  | [] => found
  | c :: l' => lastDot l' (S i) (if Ascii.eqb c dot then Some i else found)
  end.

(** [extname(p)]: from the last dot of the last name to its end; empty when
    that name has no dot, starts with its only dot, or is [..]. *)
Definition extname (p : string) : string :=
  let base := rev (takeToSlash (dropSlashes (rev (JS.chars p)))) in
  match lastDot base 0 None with
  | None => ""
  | Some O => ""
  | Some i =>
      if (i =? 1)%nat && (length base =? 2)%nat && (JS.str base =? "..")%string
      then ""
      else JS.str (skipn i base)
  end.

Fixpoint normalize (parts acc : list (list ascii)) : list (list ascii) :=
  match parts with
  | [] => rev acc
  | p :: more =>
      match p with
      | [] => normalize more acc
      | _ =>
          if (JS.str p =? ".")%string then normalize more acc
          else if (JS.str p =? "..")%string then normalize more (tl acc)
          else normalize more (p :: acc)
      end
  end.

Definition isAbsolute (p : string) : bool :=
  match JS.chars p with
  | c :: _ => isSlash c
  | [] => false
  end.

(** [resolve(from, to)] for an absolute [from] (the source only calls it
    so): [to] replaces [from] when absolute and extends it otherwise; the
    result is normalized and has no trailing slash. *)
Definition resolve (from to : string) : string :=
  let joined :=
    if isAbsolute to then JS.chars to
    else JS.chars from ++ [slash] ++ JS.chars to in
  JS.str (slash :: JS.join [slash] (normalize (JS.split slash joined) [])).

End Path.

(** ** Tokens, errors and outcomes *)

Definition nl : ascii := "010"%char.
Definition tab : ascii := "009"%char.
Definition cr : ascii := "013"%char.
Definition dquote : ascii := "034"%char.
Definition NL : string := String nl "".
Definition DQ : string := String dquote "".

(** The token kinds of glsl-tokenizer, under the names the source gives
    them. *)
Inductive tokenType : Type :=
| kGLSLTokenPreprocecsor
| kGLSLTokenBlockComment
| kGLSLTokenLineComment
| kGLSLTokenWhitespace
| kGLSLTokenIdentifier
| kGLSLTokenOperator
| kGLSLTokenBuiltin
| kGLSLTokenKeyword
| kGLSLTokenInteger
| kGLSLTokenFloat
| kGLSLTokenEOF.

Record Token : Type := mkToken {
  type : tokenType;
  data : string;
  line : nat
}.

(** What a JS [throw] carries. [Thrown] is an exception raised by caller
    code (a source generator). *)
Inductive jsError : Type :=
| SyntaxError (message : string)
| ReferenceError (message : string)
| TypeError (message : string)
| Thrown (payload : string).

(** The result of running a piece of the program from a state: it returns,
    it throws (the state reached so far stays visible), or the recursion
    budget of the model is used up. *)
Inductive outcome (St A : Type) : Type :=
| Ret (a : A) (s : St)
| Throw (e : jsError) (s : St)
| OutOfFuel.
Arguments Ret {St A} a s.
Arguments Throw {St A} e s.
Arguments OutOfFuel {St A}.

Definition M (St A : Type) : Type := St -> outcome St A.

Definition ret {St A} (a : A) : M St A := fun s => Ret a s.
Definition throw {St A} (e : jsError) : M St A := fun s => Throw e s.
Definition bind {St A B} (c : M St A) (f : A -> M St B) : M St B :=
  fun s => match c s with
           | Ret a s' => f a s'
           | Throw e s' => Throw e s'
           | OutOfFuel => OutOfFuel
           end.
Definition gets {St A} (f : St -> A) : M St A := fun s => Ret (f s) s.
Definition modify {St} (f : St -> St) : M St unit := fun s => Ret tt (f s).

Declare Scope js_scope.
Delimit Scope js_scope with js.
Notation "'let*' x ':=' c 'in' k" := (bind c (fun x => k))
  (at level 10, x name, c at level 100, k at level 200) : js_scope.
Notation "c ';;' k" := (bind c (fun _ => k))
  (at level 100, k at level 200, right associativity) : js_scope.

(** Runs a computation on a part of the state. *)
Definition zoom {St Inner A} (get : St -> Inner) (put : Inner -> St -> St)
           (c : M Inner A) : M St A :=
  fun s => match c (get s) with
           | Ret a i => Ret a (put i s)
           | Throw e i => Throw e (put i s)
           | OutOfFuel => OutOfFuel
           end.

(** ** The shader library *)

Definition kDefaultShaderLibPrecision : string := "mediump float".
Definition kDefaultShaderLibVersion : string := "100".
Definition kAnonymousShaderName : string := "<anonymous>".

(** Modelled from the spec: [DynamicValue] of [src/core/gl.js], the object
    behind [cache], [store] and [defines], is not among the sources.  The
    spec describes each of the three as a mapping from a string to a string
    which [set] writes and [unset] removes from; they are finite maps here,
    [set] is insertion, [unset] is deletion and reading a property is
    lookup. *)
Abbreviation DynamicValue := (gmap string string).

Record ShaderLib : Type := mkShaderLib {
  cache : DynamicValue;
  store : DynamicValue;
  version : string;
  precision : string;
  (** text transforms; [None] is a transform that returns [undefined] *)
  middleware : list (string -> option string);
  (** [preprocessor.defines], the define table *)
  defines : DynamicValue
}.

Definition setCache (k v : string) (l : ShaderLib) : ShaderLib :=
  mkShaderLib (<[k := v]> (cache l)) (store l) (version l) (precision l)
              (middleware l) (defines l).
Definition setStore (k v : string) (l : ShaderLib) : ShaderLib :=
  mkShaderLib (cache l) (<[k := v]> (store l)) (version l) (precision l)
              (middleware l) (defines l).
Definition setDefine (k v : string) (l : ShaderLib) : ShaderLib :=
  mkShaderLib (cache l) (store l) (version l) (precision l)
              (middleware l) (<[k := v]> (defines l)).
Definition unsetDefine (k : string) (l : ShaderLib) : ShaderLib :=
  mkShaderLib (cache l) (store l) (version l) (precision l)
              (middleware l) (delete k (defines l)).

(** The packages the source imports and that are not part of the
    repository: glsl-tokenizer, glsl-inject-defines and prepr. *)
Class Externals : Type := {
  (** [glslTokenize(source, {version})] *)
  glslTokenize : string -> string -> list Token;
  (** [injectDefines(source, defines)] *)
  injectDefines : string -> gmap string string -> string;
  (** [preprocess(source, defines)] of prepr *)
  prepr : string -> gmap string string -> string
}.

(** [glslTokensToString(tokens)]: the data of every token but the end
    marker, concatenated. *)
Definition glslTokensToString (tokens : list Token) : string :=
  String.concat ""
    (map data (List.filter (fun t => match type t with
                                | kGLSLTokenEOF => false
                                | _ => true
                                end) tokens)).

(** ** The patterns of the source *)

Module Pat.
Import Re.

Fixpoint cat (rs : list regex) : regex :=
  match rs with
  | [] => Lit ""
  | [r] => r
  | r :: more => Seq r (cat more)
  end.

Definition s : regex := Set_ [CSpace].
Definition bar : citem := CChr "|"%char.

(** [/\s?#ifndef SHADER_NAME\s?\n#define SHADER_NAME\s?.*\n#endif\n?$/g] *)
Definition shaderName : regex :=
  cat [Opt s; Lit "#ifndef SHADER_NAME"; Opt s; Lit NL;
       Lit "#define SHADER_NAME"; Opt s; Star Dot; Lit NL;
       Lit "#endif"; Opt (Lit NL); Eol].

(** [/[\s|\t]?precision\s+([a-z]+)\s+([a-z|A-Z]+)[\s+]?;[\s|\t|\r]?/g] *)
Definition precision : regex :=
  cat [Opt (Set_ [CSpace; bar; CChr tab]); Lit "precision"; Plus s;
       Grp 1 (Plus (Set_ [CRange "a" "z"])); Plus s;
       Grp 2 (Plus (Set_ [CRange "a" "z"; bar; CRange "A" "Z"]));
       Opt (Set_ [CSpace; CChr "+"]); Lit ";";
       Opt (Set_ [CSpace; bar; CChr tab; bar; CChr cr])].

(** [/[\/]+/g] *)
Definition slashes : regex := Plus (Set_ [CChr "/"]).

(** [/^\s*$/] *)
Definition blank : regex := cat [Bol; Star s; Eol].

(** [/[\s|\t]?#include[\s]+([<|Q]?.*[>|Q]?)$/], Q being the double quote *)
Definition include : regex :=
  cat [Opt (Set_ [CSpace; bar; CChr tab]); Lit "#include"; Plus (Set_ [CSpace]);
       Grp 1 (cat [Opt (Set_ [CChr "<"; bar; CChr dquote]); Star Dot;
                   Opt (Set_ [CChr ">"; bar; CChr dquote])]);
       Eol].

(** [/(#[a-z]+)\s?/] *)
Definition directive : regex :=
  cat [Grp 1 (cat [Lit "#"; Plus (Set_ [CRange "a" "z"])]); Opt s].

(** [/#define[\s]+(G)/], G being [.*] *)
Definition define : regex :=
  cat [Lit "#define"; Plus (Set_ [CSpace]); Grp 1 (Star Dot)].

(** [/.*[\s]+(G)/], G being [.*] *)
Definition keyValue : regex :=
  cat [Star Dot; Plus (Set_ [CSpace]); Grp 1 (Star Dot)].

(** [/^[Q|<](G)[Q|>]/], Q being the double quote and G being [.*] *)
Definition delimited : regex :=
  cat [Bol; Set_ [CChr dquote; bar; CChr "<"]; Grp 1 (Star Dot);
       Set_ [CChr dquote; bar; CChr ">"]].

End Pat.

(** ** Values handed to [define] *)

(** A value is seen by [define] through [true === v], [false === v],
    [null != v] and [String(v)] only; [VOther] stands for any further value
    by its [String] image. *)
Inductive jsval : Type :=
| VUndefined
| VNull
| VBool (b : bool)
| VInt (z : Z)
| VStr (s : string)
| VOther (image : string).

(** [null != v] *)
Definition notNullish (v : jsval) : bool :=
  match v with
  | VUndefined | VNull => false
  | _ => true
  end.

(** [String(v)] *)
Definition String_ (v : jsval) : string :=
  match v with
  | VUndefined => "undefined"
  | VNull => "null"
  | VBool true => "true"
  | VBool false => "false"
  | VInt z => JS.ofInt z
  | VStr s => s
  | VOther image => image
  end.

(** The first argument of [define]: an object of entries, a string, or
    anything else. *)
Inductive defineKey : Type :=
| KObject (entries : list (string * jsval))
| KString (k : string)
| KOther.

(** A nested object handed to [add]. *)
#[warnings="-register-all"]
Inductive Scope : Type :=
| Leaf (source : string)
| Nested (entries : list (string * Scope)).

(** ** [ShaderLib] and [ShaderLibPreprocessor] *)

Section Lib.
Context {E : Externals}.
Local Open Scope js_scope.

Definition TAB : string := String tab "".
Definition atGlsl : string := NL +:+ TAB +:+ "at (glsl) ".

(** The text of the [TypeError] an engine raises on a property read from
    [null] or [undefined] differs between engines; the model raises it with
    this text. *)
Definition kTypeErrorText : string := "Cannot read property of null or undefined".

(** [hash(source)]: the code units summed, in hexadecimal; [null] for what
    is not a string. *)
Definition charCodeSum (source : string) : N :=
  fold_left (fun a b => (a + b)%N) (map JS.code (JS.chars source)) 0%N.

Definition hashString (source : string) : string :=
  JS.toString16 (charCodeSum source).

Definition hash (source : option string) : option string :=
  hashString <$> source.

(** [injectShaderNameDefine(name, source)] *)
Definition injectShaderNameDefine (name source : string) : string :=
  JS.str (Re.replaceAll Pat.shaderName [] (JS.chars source)).

(** [injectShaderPrecision(source)] *)
Definition injectShaderPrecision (l : ShaderLib) (source : string) : string :=
  let header := "precision " +:+ precision l +:+ ";" in
  let source :=
    Re.replaceAll Pat.precision []
      (JS.replaceStr (JS.chars header) [] (JS.chars source)) in
  header +:+ NL +:+ JS.str source.

(** [add(name, source)] for two strings *)
Definition add (name source : string) (l : ShaderLib) : ShaderLib :=
  let name := JS.str (Re.replaceAll Pat.slashes (JS.chars "/") (JS.chars name)) in
  setStore name source l.

(** [add(scope)] for a nested object: every leaf is added under its keys
    joined by a slash. *)
Fixpoint walk (stack : list string) (scope : Scope) (l : ShaderLib) : ShaderLib :=
  match scope with
  | Leaf source => add (String.concat "/" stack) source l
  | Nested entries =>
      (fix each (es : list (string * Scope)) (l : ShaderLib) : ShaderLib :=
         match es with
         | [] => l
         | (key, sub) :: es' => each es' (walk (stack ++ [key]) sub l)
         end) entries l
  end.

Definition addScope (entries : list (string * Scope)) (l : ShaderLib) : ShaderLib :=
  walk [] (Nested entries) l.

(** [resolve(path, root)] *)
Definition resolve (path root : string) : string :=
  let root := Path.resolve "/" root in
  let path := JS.str (JS.replaceStr (JS.chars (Path.extname path)) [] (JS.chars path)) in
  let path := Path.resolve root path in
  JS.str (skipn 1 (JS.chars path)).

(** [isCached(source)] *)
Definition isCached (source : option string) (l : ShaderLib) : bool :=
  match cache l !! default "" (hash source) with
  | Some _ => true
  | None => false
  end.

(** [preprocess(source)] *)
Definition preprocess (source : string) (l : ShaderLib) : string :=
  let source := prepr source (defines l) in
  JS.str (JS.join [nl]
    (List.filter (fun line => negb (Re.test Pat.blank line))
                 (JS.split nl (JS.chars source)))).

(** *** [ShaderLibPreprocessor.define] and [undefine] *)

Definition defineString (key : string) (value : jsval) : M ShaderLib bool :=
  (* boolean -> number *)
  let value := match value with
               | VBool true => VInt 1
               | VBool false => VInt 0
               | v => v
               end in
  if notNullish value then
    (* any -> string *)
    let value := String_ value in
    let* current := gets (fun l => defines l !! key) in
    if bool_decide (Some value ≠ current) then
      modify (setDefine key value) ;; ret true
    else ret false
  else ret false.

Fixpoint defineEntries (entries : list (string * jsval)) : M ShaderLib (list bool) :=
  match entries with
  | [] => ret []
  | (k, v) :: more =>
      let* changed := defineString k v in
      let* rest := defineEntries more in
      ret (changed :: rest)
  end.

Definition define (key : defineKey) (value : jsval) : M ShaderLib bool :=
  match key with
  | KObject entries =>
      let* results := defineEntries entries in
      ret (existsb (fun v => v) results)
  | KString k => defineString k value
  | KOther => ret false
  end.

Definition undefine (key : string) : M ShaderLib unit :=
  modify (unsetDefine key).

(** *** The directive walker *)

(** The state one call of [process] works on: the library and the two
    arrays of the call, [stack] and [includeStack]. *)
Record Walk : Type := mkWalk {
  lib : ShaderLib;
  stack : list Token;
  includeStack : list string
}.

Definition onLib {A} (c : M ShaderLib A) : M Walk A :=
  zoom lib (fun l w => mkWalk l (stack w) (includeStack w)) c.

Definition push (t : Token) : M Walk unit :=
  modify (fun w => mkWalk (lib w) (stack w ++ [t]) (includeStack w)).
Definition pushInclude (frame : string) : M Walk unit :=
  modify (fun w => mkWalk (lib w) (stack w) (includeStack w ++ [frame])).
Definition popInclude : M Walk unit :=
  modify (fun w => mkWalk (lib w) (stack w) (removelast (includeStack w))).

(** [createError(ErrorType, msg)] *)
Definition createError (ErrorType : string -> jsError) (msg : string)
  : M Walk jsError :=
  let* frames := gets includeStack in
  ret (ErrorType (msg +:+ atGlsl +:+ String.concat atGlsl frames)).

Definition throwError {A} (ErrorType : string -> jsError) (msg : string)
  : M Walk A :=
  fun w => match createError ErrorType msg w with
           | Ret e w' => Throw e w'
           | Throw e w' => Throw e w'
           | OutOfFuel => OutOfFuel
           end.

(** [s[i]] of a string, trimmed; [None] when the index is outside. *)
Definition charAtTrim (l : list ascii) (i : nat) : option string :=
  (fun c => JS.str (JS.trim [c])) <$> nth_error l i.

Definition msgUnexpected (tok expecting : string) : string :=
  "Unexpected token '" +:+ tok +:+ "'. Expecting " +:+ expecting +:+ ".".

Definition quoted (x : string) : string := "'" +:+ x +:+ "'".

(** What an [#include] token asks for: the checks on its delimiters and
    then the argument, the path, the root for the walk of the fragment and
    the resolved path. Throws like the source. *)
Record Include : Type := mkInclude {
  incArg : string;
  incPath : string;
  incRoot : string;
  incResolved : string
}.

Definition parseInclude (tokenData root : string) : M Walk Include :=
  match Re.exec Pat.include (JS.chars tokenData) ≫= Re.group 1 with
  | None => throw (TypeError kTypeErrorText)  (* [arg] is undefined *)
  | Some arg =>
      let path :=
        JS.trim (Re.replace Pat.delimited
                   (fun r => default [] (Re.group 1 r)) arg) in
      match charAtTrim arg 0 with
      | None => throw (TypeError kTypeErrorText)   (* [arg[0]] is undefined *)
      | Some left_ =>
          let last := length (JS.trim arg) in
          match (if (last =? 0)%nat then None else charAtTrim arg (last - 1)) with
          | None => throw (TypeError kTypeErrorText)
          | Some right_ =>
              if negb (bool_decide (left_ ∈ ["<"; DQ])) then
                throwError SyntaxError
                  (msgUnexpected left_ (quoted "<" +:+ " or " +:+ quoted DQ))
              else if negb (bool_decide (right_ ∈ [">"; DQ])) then
                throwError SyntaxError
                  (msgUnexpected right_
                     (if bool_decide (left_ = "<") then quoted ">" else quoted DQ))
              else if bool_decide (left_ = "<") && negb (bool_decide (right_ = ">")) then
                throwError SyntaxError (msgUnexpected right_ (quoted ">"))
              else if bool_decide (left_ = DQ) && negb (bool_decide (right_ = DQ)) then
                throwError SyntaxError (msgUnexpected right_ (quoted DQ))
              else
                let nextRoot :=
                  if bool_decide (left_ = "<") && bool_decide (right_ = ">")
                  then "/" else root in
                let prefix :=
                  match path with
                  | c :: _ => if Ascii.eqb c "." then "" else "./"
                  | [] => "./"
                  end in
                ret (mkInclude (JS.str arg) (JS.str path) nextRoot
                       (resolve (prefix +:+ JS.str path) nextRoot))
          end
      end
  end.

(** The [#define] case: a define without a value gets the value 1. *)
Definition normalizeDefine (t : Token) : Token :=
  match Re.exec Pat.define (JS.chars (data t)) with
  | Some res =>
      match Re.exec Pat.keyValue (default [] (Re.group 1 res)) with
      | Some _ => t
      | None => mkToken (type t) (data t +:+ " 1") (line t)
      end
  | None => t
  end.

Section Visit.
(** [shaderLib.get] and the nested [visit], both one level of recursion
    further down. *)
Variable getRec : string -> M ShaderLib (option string).
Variable visitRec : string -> string -> M Walk unit.

Definition visitToken (token : Token) (root : string) : M Walk unit :=
  match type token with
  | kGLSLTokenBlockComment | kGLSLTokenLineComment => ret tt
  | kGLSLTokenPreprocecsor =>
      match Re.exec Pat.directive (JS.chars (data token)) with
      | None => throw (TypeError kTypeErrorText)   (* [null[0]] *)
      | Some res =>
          let directive := JS.str (JS.trim (Re.matched res)) in
          if bool_decide (directive = "#define") then
            push (normalizeDefine token)
          else if bool_decide (directive = "#include") then
            let* inc := parseInclude (data token) root in
            let* shader := onLib (getRec (incResolved inc)) in
            (match shader with
             | Some text =>
                 if JS.truthy text then
                   pushInclude (incPath inc +:+ ":" +:+ JS.ofInt (Z.of_nat (line token))) ;;
                   visitRec (text +:+ NL) (incRoot inc)
                 else
                   throwError ReferenceError
                     ("glsl lib " +:+ incArg inc +:+ " not found.")
             | None =>
                 throwError ReferenceError
                   ("glsl lib " +:+ incArg inc +:+ " not found.")
             end) ;;
            popInclude
          else push token
      end
  | _ => push token
  end.

Fixpoint visitTokens (tokens : list Token) (root : string) : M Walk unit :=
  match tokens with
  | [] => ret tt
  | token :: more => visitToken token root ;; visitTokens more root
  end.

(** [visit(source, stack, root)] *)
Definition visit (source root : string) : M Walk unit :=
  let* v := gets (fun w => version (lib w)) in
  visitTokens (glslTokenize source v) root.
End Visit.

(** [process(name, source)] on top of a given [visit]. *)
Definition processWith (visitTop : string -> string -> M Walk unit)
           (name source : string) : M ShaderLib string :=
  fun l =>
    let source := injectDefines source (defines l) in
    let root :=
      if bool_decide (name ≠ kAnonymousShaderName) then Path.dirname name
      else "/" in
    match visitTop (NL +:+ source +:+ NL) root (mkWalk l [] []) with
    | Ret _ w =>
        let source := glslTokensToString (stack w) in
        let source :=
          fold_left (fun src ware => default src (ware src)) (middleware l) source in
        Ret (JS.str (JS.replaceStr (JS.chars ("#define GLSLIFY 1" +:+ NL)) []
                       (JS.chars source)))
            (lib w)
    | Throw e w => Throw e (lib w)
    | OutOfFuel => OutOfFuel
    end.

(** A string or [null]: is it truthy *)
Definition truthyO (x : option string) : bool :=
  match x with
  | Some s => JS.truthy s
  | None => false
  end.

(** The last step of [compile]: empty lines go, a line of one character
    gets a line feed of its own. *)
Definition assemble (source : string) : string :=
  JS.str (JS.join [nl]
    (map (fun line => if (length line =? 1)%nat then line ++ [nl] else line)
       (List.filter (fun line => negb (length line =? 0)%nat)
          (JS.split nl (JS.chars source))))).

(** [compile(name, source)] on top of a given [visit]. *)
Definition compileWith (visitTop : string -> string -> M Walk unit)
           (name source : option string) : M ShaderLib (option string) :=
  let '(name, source) :=
    if negb (truthyO source) && truthyO name then (None, name)
    else (name, source) in
  let name := if truthyO name then default "" name else kAnonymousShaderName in
  match source with
  | None => ret None
  | Some source =>
      if negb (JS.truthy source) then ret None
      else
        let hash := hashString source in
        let* hit := gets (fun l => cache l !! hash) in
        if truthyO hit then ret hit
        else
          let source := injectShaderNameDefine name source in
          let* source := processWith visitTop name source in
          let* source := gets (fun l => injectShaderPrecision l source) in
          let source := assemble source in
          modify (setCache hash source) ;;
          ret (Some (source +:+ NL))
  end.

(** [get(path)] on top of a given [compile]. *)
Definition getWith (compileRec : option string -> option string -> M ShaderLib (option string))
           (path : string) : M ShaderLib (option string) :=
  let* source := gets (fun l => store l !! path) in
  match source with
  | Some source => compileRec (Some path) (Some source)
  | None => ret None
  end.

(** [compile], [get] and [visit] call each other and need not return (a
    fragment may include itself): the recursion is tied with a budget of
    nested calls. *)
Record Engine : Type := mkEngine {
  runCompile : option string -> option string -> M ShaderLib (option string);
  runVisit : string -> string -> M Walk unit
}.

Fixpoint engine (fuel : nat) : Engine :=
  match fuel with
  | O => mkEngine (fun _ _ _ => OutOfFuel) (fun _ _ _ => OutOfFuel)
  | S n =>
      let e := engine n in
      let v := visit (getWith (runCompile e)) (runVisit e) in
      mkEngine (compileWith v) v
  end.

Definition compile (fuel : nat) (name source : option string)
  : M ShaderLib (option string) :=
  runCompile (engine fuel) name source.

Definition get (fuel : nat) (path : string) : M ShaderLib (option string) :=
  getWith (compile fuel) path.

Definition process (fuel : nat) (name source : string) : M ShaderLib string :=
  processWith (runVisit (engine fuel)) name source.

(** *** The constructor of [ShaderLib] *)

(** The object spread of two objects of fragments: the keys of the first in
    their order, with the values of the second where it has the key, then
    the keys only the second has. *)
Definition spread {V} (a b : list (string * V)) : list (string * V) :=
  map (fun kv => (fst kv, default (snd kv) (snd <$> find (fun x => String.eqb (fst x) (fst kv)) b))) a
  ++ List.filter (fun kv => negb (existsb (fun x => String.eqb (fst x) (fst kv)) a)) b.

Record ShaderLibOptions : Type := mkShaderLibOptions {
  optMiddleware : option (list (string -> option string));
  optPrecision : option string;
  optVersion : option string;
  optDefines : list (string * jsval);
  optGlsl : list (string * Scope)
}.

(** [new ShaderLib(options)]; [libglsl] is the bundled library of
    [src/core/glsl], which the constructor adds before the fragments of the
    caller. *)
Definition newShaderLib (libglsl : list (string * Scope)) (o : ShaderLibOptions)
  : ShaderLib :=
  let version :=
    match optVersion o with
    | Some v => if JS.truthy v then v else kDefaultShaderLibVersion
    | None => kDefaultShaderLibVersion
    end in
  let l := mkShaderLib ∅ ∅ version
             (default kDefaultShaderLibPrecision (optPrecision o))
             (default [] (optMiddleware o)) ∅ in
  let l := match define (KObject (optDefines o)) VUndefined l with
           | Ret _ l' => l'
           | _ => l
           end in
  addScope (spread libglsl (optGlsl o)) l.


End Lib.

(** ** A reference instance of the imported packages

    The scenarios below need the imported packages to run.  [Ref.tokenize]
    cuts a text the way glsl-tokenizer does as far as [visit] can tell:
    white space, a preprocessor line from [#] to the end of its line, line
    and block comments, and the remaining text as words and single
    characters (glsl-tokenizer sorts those further into keywords, builtins,
    numbers and operators, which [visit] treats alike).
    [Ref.inject] writes one [#define] line per entry in front of the
    text.  [Ref.expand] takes the [#define] lines out of the text, as prepr
    does when it records a macro; it replaces no use of a macro and
    evaluates no conditional directive, so it stands for prepr only on a
    text that has no other directive and uses none of the names that its
    [#define] lines or the define table give.  No statement below gives the
    text of a program after [preprocess] under this instance. *)

Module Ref.

Inductive mode : Type :=
| Normal | Whitespace | Preprocessor | LineComment | BlockComment | Word.

Definition isWord (c : ascii) : bool :=
  Re.inClass [Re.CRange "a" "z"; Re.CRange "A" "Z"; Re.CRange "0" "9"; Re.CChr "_"] c.

Definition kind (md : mode) : tokenType :=
  match md with
  | Normal => kGLSLTokenOperator
  | Whitespace => kGLSLTokenWhitespace
  | Preprocessor => kGLSLTokenPreprocecsor
  | LineComment => kGLSLTokenLineComment
  | BlockComment => kGLSLTokenBlockComment
  | Word => kGLSLTokenIdentifier
  end.

(** The token collected so far ([content], last character first), if any. *)
Definition emit (md : mode) (content : list ascii) (line : nat) : list Token :=
  match content with
  | [] => []
  | _ => [mkToken (kind md) (JS.str (rev content)) line]
  end.

Definition lastIs (c : ascii) (content : list ascii) : bool :=
  match content with
  | x :: _ => Ascii.eqb x c
  | [] => false
  end.

Fixpoint lex (md : mode) (content : list ascii) (line : nat) (l : list ascii)
  : list Token :=
  match l with
  | [] => emit md content line ++ [mkToken kGLSLTokenEOF "(eof)" line]
  | c :: l' =>
      let line' := if Ascii.eqb c nl then S line else line in
      (* a token starts at [c] *)
      let start := fun _ : unit =>
        if Ascii.eqb c "#" then lex Preprocessor [c] line' l'
        else if JS.isSpace c then lex Whitespace [c] line' l'
        else if Ascii.eqb c "/" then
          match l' with
          | x :: _ =>
              if Ascii.eqb x "/" then lex LineComment [c] line' l'
              else if Ascii.eqb x "*" then lex BlockComment [c] line' l'
              else mkToken kGLSLTokenOperator (JS.str [c]) line :: lex Normal [] line' l'
          | [] => mkToken kGLSLTokenOperator (JS.str [c]) line :: lex Normal [] line' l'
          end
        else if isWord c then lex Word [c] line' l'
        else mkToken kGLSLTokenOperator (JS.str [c]) line :: lex Normal [] line' l' in
      match md with
      | Normal => start tt
      | Whitespace =>
          if JS.isSpace c then lex Whitespace (c :: content) line' l'
          else emit md content line ++ start tt
      | Preprocessor | LineComment =>
          if JS.isLineTerminator c && negb (lastIs "\" content)
          then emit md content line ++ start tt
          else lex md (c :: content) line' l'
      | BlockComment =>
          if Ascii.eqb c "/" && lastIs "*" content
          then emit md (c :: content) line ++ lex Normal [] line' l'
          else lex md (c :: content) line' l'
      | Word =>
          if isWord c then lex Word (c :: content) line' l'
          else emit md content line ++ start tt
      end
  end.

Definition tokenize (source version : string) : list Token :=
  lex Normal [] 1 (JS.chars source).

Definition inject (source : string) (defs : gmap string string) : string :=
  String.concat ""
    (map (fun kv => "#define " +:+ fst kv +:+
                    (if JS.truthy (snd kv) then " " +:+ snd kv else "") +:+ NL)
         (map_to_list defs)) +:+ source.

(** A line that is a [#define] directive. *)
Definition isDefineLine (line : list ascii) : bool :=
  match JS.stripPrefix (JS.chars "#define") (JS.trimStart line) with
  | Some _ => true
  | None => false
  end.

Definition expand (source : string) (defs : gmap string string) : string :=
  JS.str (JS.join [nl]
            (List.filter (fun line => negb (isDefineLine line))
                         (JS.split nl (JS.chars source)))).

Definition externals : Externals :=
  {| glslTokenize := tokenize; injectDefines := inject; prepr := expand |}.

End Ref.

(** ** The [Shader] component *)

(** What [ctx.regl(opts)] is made from in [compile]: the two programs. *)
Record Program : Type := mkProgram {
  vert : option string;
  frag : option string
}.

Section ShaderComponent.
Context {E : Externals}.
(** What a source function is applied to: the regl context and the state of
    the frame. *)
Context {Env : Type}.
Local Open Scope js_scope.

(** The [vertexShader] / [fragmentShader] of a frame state: a string, a
    function that returns the text or throws, or neither. *)
Inductive shaderSource : Type :=
| SrcAbsent
| SrcString (text : string)
| SrcFunction (f : Env -> string + jsError).

Record FrameState : Type := mkFrameState {
  forceCompile : bool;                       (* absent is [false] *)
  stateDefines : gmap string jsval;          (* [state.defines] *)
  stateVertexShader : shaderSource;
  stateFragmentShader : shaderSource;
  env : Env
}.

(** The closure of one [Shader]. [compileCount] is not in the source: it
    counts the calls of the inner [compile], to tell the frames that
    compile from those that do not. *)
Record Shader : Type := mkShader {
  shaderName : string;
  instDefines : gmap string jsval;           (* [defines] *)
  shaderLib : ShaderLib;
  (** whether [injectParentContext] is the one of [compile], which puts the
      defines of the instance into the regl context *)
  parentInjectsDefines : bool;
  injectContext : option Program;
  fragmentShaderUncompiled : option string;
  vertexShaderUncompiled : option string;
  fragmentShader : option string;
  vertexShader : option string;
  contextCache : gmap string Program;
  shaderCache : gmap string string;
  compileCount : nat
}.

Definition withLib (l : ShaderLib) (s : Shader) : Shader :=
  mkShader (shaderName s) (instDefines s) l (parentInjectsDefines s)
    (injectContext s) (fragmentShaderUncompiled s) (vertexShaderUncompiled s)
    (fragmentShader s) (vertexShader s) (contextCache s) (shaderCache s)
    (compileCount s).

Definition withDefines (d : gmap string jsval) (s : Shader) : Shader :=
  mkShader (shaderName s) d (shaderLib s) (parentInjectsDefines s)
    (injectContext s) (fragmentShaderUncompiled s) (vertexShaderUncompiled s)
    (fragmentShader s) (vertexShader s) (contextCache s) (shaderCache s)
    (compileCount s).

Definition withVertex (compiled uncompiled : string) (s : Shader) : Shader :=
  mkShader (shaderName s) (instDefines s) (shaderLib s) (parentInjectsDefines s)
    (injectContext s) (fragmentShaderUncompiled s) (Some uncompiled)
    (fragmentShader s) (Some compiled) (contextCache s)
    (<[hashString uncompiled := compiled]> (shaderCache s)) (compileCount s).

Definition withFragment (compiled uncompiled : string) (s : Shader) : Shader :=
  mkShader (shaderName s) (instDefines s) (shaderLib s) (parentInjectsDefines s)
    (injectContext s) (Some uncompiled) (vertexShaderUncompiled s)
    (Some compiled) (vertexShader s) (contextCache s)
    (<[hashString uncompiled := compiled]> (shaderCache s)) (compileCount s).

Definition onShaderLib {A} (c : M ShaderLib A) : M Shader A :=
  zoom shaderLib withLib c.

(** [getViableShader(reglContext, currentState, shader)]; [None] is
    [undefined]. *)
Definition getViableShader (frame : FrameState) (shader : shaderSource)
  : M Shader (option string) :=
  match shader with
  | SrcString text => ret (Some text)
  | SrcFunction f =>
      match f (env frame) with
      | inl text => ret (Some text)
      | inr e => throw e
      end
  | SrcAbsent => ret None
  end.

(** [isViableShader(shader)] *)
Definition isViableShader (shader : shaderSource) : bool :=
  match shader with
  | SrcAbsent => false
  | _ => true
  end.

(** [shouldCompile(reglContext, currentState)] *)
Definition checkShader (frame : FrameState) (current : option string)
           (next : shaderSource) (needsCompile : bool) : M Shader bool :=
  let* next := getViableShader frame next in
  let* memo := gets (fun s => shaderCache s !! default "null" (hash next)) in
  if truthyO memo then ret needsCompile
  else
    match current, next with
    (* [current] is not a string: a truthy [next] takes the first test and
       the empty string, which differs from [null], the second *)
    | None, Some n => ret true
    | Some c, Some n => if bool_decide (c ≠ n) then ret true else ret needsCompile
    | _, None => ret needsCompile
    end.

Definition shouldCompile (frame : FrameState) : M Shader bool :=
  let* ic := gets injectContext in
  let needsCompile := match ic with None => true | Some _ => false end in
  let* vsu := gets vertexShaderUncompiled in
  let* needsCompile := checkShader frame vsu (stateVertexShader frame) needsCompile in
  let* fsu := gets fragmentShaderUncompiled in
  checkShader frame fsu (stateFragmentShader frame) needsCompile.

(** [compileShader(type, shader)]: the compiled and the uncompiled text,
    or [null]. *)
Definition compileShader (fuel : nat) (frame : FrameState) (type_ : string)
           (shader : shaderSource) : M Shader (option (string * string)) :=
  if isViableShader shader then
    let* uncompiled := getViableShader frame shader in
    let* name := gets (fun s => shaderName s +:+ " (" +:+ type_ +:+ ")") in
    let* compiled := onShaderLib (compile fuel (Some name) uncompiled) in
    match compiled, uncompiled with
    | Some compiled, Some uncompiled =>
        let* compiled := onShaderLib (gets (preprocess compiled)) in
        ret (Some (compiled, uncompiled))
    | _, _ => throw (TypeError kTypeErrorText)   (* [prepr] of [null] *)
    end
  else ret None.

Definition compileVertexShader (fuel : nat) (frame : FrameState) : M Shader unit :=
  let* result := compileShader fuel frame "vertex" (stateVertexShader frame) in
  match result with
  | Some (compiled, uncompiled) => modify (withVertex compiled uncompiled)
  | None => ret tt
  end.

Definition compileFragmentShader (fuel : nat) (frame : FrameState) : M Shader unit :=
  let* result := compileShader fuel frame "fragment" (stateFragmentShader frame) in
  match result with
  | Some (compiled, uncompiled) => modify (withFragment compiled uncompiled)
  | None => ret tt
  end.

(** The end of the inner [compile]: the regl command of the pair of
    programs, made once for each pair. *)
Definition registerProgram (s : Shader) : Shader :=
  let opts := mkProgram (vertexShader s) (fragmentShader s) in
  let s := mkShader (shaderName s) (instDefines s) (shaderLib s) true
             (injectContext s) (fragmentShaderUncompiled s)
             (vertexShaderUncompiled s) (fragmentShader s) (vertexShader s)
             (contextCache s) (shaderCache s) (compileCount s) in
  match vert opts, frag opts with
  | None, None => s
  | _, _ =>
      let hash :=
        String.concat ""
          (omap (fun x => x) [hash (vert opts); hash (frag opts)]) in
      match contextCache s !! hash with
      | Some _ => s
      | None =>
          mkShader (shaderName s) (instDefines s) (shaderLib s)
            (parentInjectsDefines s) (Some opts) (fragmentShaderUncompiled s)
            (vertexShaderUncompiled s) (fragmentShader s) (vertexShader s)
            (<[hash := opts]> (contextCache s)) (shaderCache s) (compileCount s)
      end
  end.

Definition countCompile (s : Shader) : Shader :=
  mkShader (shaderName s) (instDefines s) (shaderLib s) (parentInjectsDefines s)
    (injectContext s) (fragmentShaderUncompiled s) (vertexShaderUncompiled s)
    (fragmentShader s) (vertexShader s) (contextCache s) (shaderCache s)
    (S (compileCount s)).

(** The inner [compile(reglContext, currentState)] *)
Definition compileProgram (fuel : nat) (frame : FrameState) : M Shader unit :=
  modify countCompile ;;
  compileVertexShader fuel frame ;;
  compileFragmentShader fuel frame ;;
  modify registerProgram.

(** Modelled from the spec: [assign] of [src/utils] is not among the
    sources; it copies the entries of its later arguments onto its first,
    a later entry replacing an earlier one of the same key. On maps,
    [assign(target, source)] is [source ∪ target]. *)
Definition assign {V} (target source : gmap string V) : gmap string V :=
  source ∪ target.

(** [reglContext.defines]: the defines of the enclosing scope, under those
    of the instance once [compile] has replaced [injectParentContext]. *)
Definition reglContextDefines (contextDefines : gmap string jsval) (s : Shader)
  : gmap string jsval :=
  if parentInjectsDefines s then instDefines s ∪ contextDefines
  else contextDefines.

(** [update(state, block)]; the result is the regl command that runs the
    block, [None] when the block runs bare. *)
Definition update (fuel : nat) (contextDefines : gmap string jsval)
           (frame : FrameState) : M Shader (option Program) :=
  let* merged := gets (fun s =>
      assign (instDefines s)
        (stateDefines frame ∪ reglContextDefines contextDefines s)) in
  modify (withDefines merged) ;;
  let* changed :=
    if bool_decide (merged ≠ ∅)
    then onShaderLib (define (KObject (map_to_list merged)) VUndefined)
    else ret false in
  let forceCompile := forceCompile frame || changed in
  let* go := if forceCompile then ret true else shouldCompile frame in
  (if go then compileProgram fuel frame else ret tt) ;;
  gets injectContext.

(** [Shader.defaults()] and the constructor *)
Record ShaderOptions : Type := mkShaderOptions {
  initDefines : option (gmap string jsval);
  initPrecision : option string;
  initShaderName : option string;
  initLib : ShaderLibOptions
}.

Definition newShader (libglsl : list (string * Scope)) (o : ShaderOptions)
  : Shader :=
  let defines := default ∅ (initDefines o) in
  let precision := default "mediump float" (initPrecision o) in
  let lib :=
    newShaderLib libglsl
      (mkShaderLibOptions (optMiddleware (initLib o)) (Some precision)
         (optVersion (initLib o)) (map_to_list defines) (optGlsl (initLib o))) in
  mkShader (default kAnonymousShaderName (initShaderName o)) defines lib false
    None None None None None ∅ ∅ 0.

End ShaderComponent.

(** ** Notions used by the statements *)

(** What [define] stores for a value: booleans become 1 and 0, [null] and
    [undefined] store nothing, every other value is stored as its string. *)
Definition coerce (value : jsval) : option string :=
  match value with
  | VUndefined | VNull => None
  | VBool true => Some "1"
  | VBool false => Some "0"
  | v => Some (String_ v)
  end.

(** An entry changes a table when it stores a string that the table does
    not hold under its key. *)
Definition changesTable (table : gmap string string) (kv : string * jsval) : bool :=
  match coerce (snd kv) with
  | Some x => bool_decide (table !! fst kv ≠ Some x)
  | None => false
  end.

(** The table after every entry of an object is defined, in order. *)
Definition tableAfter (entries : list (string * jsval)) (table : gmap string string)
  : gmap string string :=
  fold_left (fun d kv => match coerce (snd kv) with
                         | Some x => <[fst kv := x]> d
                         | None => d
                         end) entries table.

(** The name a call of [compile] works under: its own, or the anonymous
    one when it has none. *)
Definition workingName (name : option string) : string :=
  if truthyO name then default "" name else kAnonymousShaderName.

(** Two libraries that differ in the define table at most. *)
Definition sameButDefines (l l' : ShaderLib) : Prop :=
  cache l' = cache l ∧ store l' = store l ∧ version l' = version l ∧
  precision l' = precision l ∧ middleware l' = middleware l.

(** An empty library with the defaults of the constructor. *)
Definition emptyLib : ShaderLib :=
  mkShaderLib ∅ ∅ kDefaultShaderLibVersion kDefaultShaderLibPrecision [] ∅.

(** The store of the end-to-end scenario: fragment [a] defines a flag
    and fragment [b] includes [a]. *)
Definition scenarioLib : ShaderLib :=
  add "b" ("#include <a>" +:+ NL +:+ "body_b")
    (add "a" ("#define FOO" +:+ NL +:+ "body_a") emptyLib).

(** A store with a fragment of the same name in a directory and at the
    root, and a fragment of the directory that includes its neighbour. *)
Definition nestedLib : ShaderLib :=
  add "light/ambient" "ambient_body"
    (add "foo" "root_foo"
       (add "mat/foo" "mat_foo"
          (add "mat/flat" ("#include " +:+ DQ +:+ "./foo" +:+ DQ) emptyLib))).


(** The text a source gives at a frame, when it gives one. *)
Definition sourceText {Env} (frame : @FrameState Env) (src : @shaderSource Env)
  : option string :=
  match src with
  | SrcAbsent => None
  | SrcString text => Some text
  | SrcFunction f => match f (env frame) with
                     | inl text => Some text
                     | inr _ => None
                     end
  end.

(** The exception a source throws at a frame, when it throws. *)
Definition sourceError {Env} (frame : @FrameState Env) (src : @shaderSource Env)
  : option jsError :=
  match src with
  | SrcFunction f => match f (env frame) with
                     | inl _ => None
                     | inr e => Some e
                     end
  | _ => None
  end.

(** The exception a frame throws first: that of the vertex source, which is
    evaluated first, or else that of the fragment source. *)
Definition firstError {Env} (frame : @FrameState Env) : option jsError :=
  match sourceError frame (stateVertexShader frame) with
  | Some e => Some e
  | None => sourceError frame (stateFragmentShader frame)
  end.



(** The defines of the instance after the merge at the start of [update]. *)
Definition mergedDefines {Env} (contextDefines : gmap string jsval)
           (frame : @FrameState Env) (s : Shader) : gmap string jsval :=
  assign (instDefines s) (stateDefines frame ∪ reglContextDefines contextDefines s).


(** Two states of an instance with the same compiled programs, recorded
    sources, memo, regl commands and library cache. *)
Definition samePrograms (s s' : Shader) : Prop :=
  vertexShader s' = vertexShader s ∧ fragmentShader s' = fragmentShader s ∧
  vertexShaderUncompiled s' = vertexShaderUncompiled s ∧
  fragmentShaderUncompiled s' = fragmentShaderUncompiled s ∧
  shaderCache s' = shaderCache s ∧ contextCache s' = contextCache s ∧
  injectContext s' = injectContext s ∧
  cache (shaderLib s') = cache (shaderLib s).

(** The key of the pair of programs of an instance among the regl
    commands: the hashes of the programs that are there, joined. *)
Definition pairHash (s : Shader) : string :=
  String.concat "" (omap (fun x => x) [hash (vertexShader s); hash (fragmentShader s)]).

(** The directive of a preprocessor token, as [visit] reads it. *)
Definition directiveOf (t : Token) : option string :=
  (fun r => JS.str (JS.trim (Re.matched r))) <$>
  Re.exec Pat.directive (JS.chars (data t)).

Definition isComment (t : Token) : bool :=
  match type t with
  | kGLSLTokenBlockComment | kGLSLTokenLineComment => true
  | _ => false
  end.

(** A token that is no [#include] and no preprocessor token without a
    readable directive. *)
Definition standalone (t : Token) : bool :=
  match type t with
  | kGLSLTokenPreprocecsor =>
      match directiveOf t with
      | Some d => negb (bool_decide (d = "#include"))
      | None => false
      end
  | _ => true
  end.

(** What the walk puts on the stack for a token that is not a comment. *)
Definition kept (t : Token) : Token :=
  match type t with
  | kGLSLTokenPreprocecsor =>
      if bool_decide (directiveOf t = Some "#define") then normalizeDefine t else t
  | _ => t
  end.

(** The lines of the text [assemble] makes of a list of lines: each line,
    and an empty line behind a line of one character. *)
Definition spaced (line : list ascii) : list (list ascii) :=
  if (length line =? 1)%nat then [line; []] else [line].

(** A path segment as [resolve] leaves it: not empty, neither [.] nor
    [..], and without a slash. *)
Definition cleanSegment (seg : list ascii) : Prop :=
  seg ≠ [] ∧ JS.str seg ≠ "." ∧ JS.str seg ≠ ".." ∧ Path.slash ∉ seg.

(** What a compile may do to a library: add entries to the cache. *)
Definition cacheGrows (l l' : ShaderLib) : Prop :=
  store l' = store l ∧ defines l' = defines l ∧ version l' = version l ∧
  precision l' = precision l ∧ middleware l' = middleware l ∧
  dom (cache l) ⊆ dom (cache l').

(** A computation on a library, and one on a walk, that do no more to the
    library than that, whether they return or throw. *)
Definition keepsLib {A} (c : M ShaderLib A) : Prop :=
  ∀ l, match c l with
       | Ret _ l' | Throw _ l' => cacheGrows l l'
       | OutOfFuel => True
       end.

Definition keepsWalk {A} (c : M Walk A) : Prop :=
  ∀ w, match c w with
       | Ret _ w' | Throw _ w' => cacheGrows (lib w) (lib w')
       | OutOfFuel => True
       end.

(** The second outcome is the first, unless the first ran out of budget;
    and the same for two computations from every state. *)
Definition extends {St A} (o1 o2 : outcome St A) : Prop :=
  o1 = OutOfFuel ∨ o1 = o2.

Definition extendsM {St A} (c1 c2 : M St A) : Prop :=
  ∀ s, extends (c1 s) (c2 s).

(** A store with a fragment that includes itself. *)
Definition loopSource : string := "#include <loop>".
Definition loopLib : ShaderLib := add "loop" loopSource emptyLib.

(** The leaves of a nested object, depth first, each with its keys joined
    by a slash. *)
Fixpoint flatten (stack : list string) (scope : Scope) : list (string * string) :=
  match scope with
  | Leaf source => [(String.concat "/" stack, source)]
  | Nested entries =>
      (fix each (es : list (string * Scope)) : list (string * string) :=
         match es with
         | [] => []
         | (key, sub) :: es' => flatten (stack ++ [key]) sub ++ each es'
         end) entries
  end.

(** The message of the reference error for the include argument [arg]
    under the include stack [frames]. *)
Definition referenceErrorAt (arg : string) (frames : list string) : jsError :=
  ReferenceError (("glsl lib " +:+ arg +:+ " not found.") +:+ atGlsl +:+
                  String.concat atGlsl frames).

(** A walk that, when it returns, has the include stack it started with
    and has only added to the token stack. *)
Definition balanced {A} (c : M Walk A) : Prop :=
  ∀ w, match c w with
       | Ret _ w' => includeStack w' = includeStack w ∧ stack w `prefix_of` stack w'
       | _ => True
       end.

(** The text of an [#include] token: the directive, white space and the
    argument. *)
Definition includeData (ws arg : list ascii) : string :=
  JS.str (JS.chars "#include" ++ ws ++ arg).

(** White space that is there, and a text without a line terminator. *)
Definition blanks (ws : list ascii) : Prop :=
  ws ≠ [] ∧ Forall (λ c, JS.isSpace c = true) ws.
Definition oneLine (l : list ascii) : Prop :=
  Forall (λ c, JS.isLineTerminator c = false) l.

(** A path as [visit] hands it to [resolve]: behind [./] unless it starts
    with a dot. *)
Definition dotted (path : string) : string :=
  match JS.chars path with
  | c :: _ => if Ascii.eqb c "." then path else "./" +:+ path
  | [] => "./" +:+ path
  end.

(** A store with two directories that hold a fragment of the same text,
    an include of the neighbour [foo], and each its own [foo]. *)
Definition twinLib : ShaderLib :=
  add "b/foo" "from_b"
    (add "a/foo" "from_a"
       (add "b/flat" ("#include " +:+ DQ +:+ "./foo" +:+ DQ)
          (add "a/flat" ("#include " +:+ DQ +:+ "./foo" +:+ DQ) emptyLib))).

(** A path made of segments, and a segment without a dot. *)
Definition pathOf (segs : list (list ascii)) : string :=
  JS.str (JS.join [Path.slash] segs).

Definition plainSegment (seg : list ascii) : Prop :=
  seg ≠ [] ∧ (Path.slash ∉ seg) ∧ (Path.dot ∉ seg).

(** A library with another define table. *)
Definition libWithTable (table : gmap string string) (l : ShaderLib) : ShaderLib :=
  mkShaderLib (cache l) (store l) (version l) (precision l) (middleware l) table.

(** An instance after the first steps of [update]: its defines are the
    merged ones and every one of them is in the table of its library. *)
Definition afterDefines (merged : gmap string jsval) (s : Shader) : Shader :=
  withLib (libWithTable (tableAfter (map_to_list merged) (defines (shaderLib s)))
             (shaderLib s))
    (withDefines merged s).


(** A shader without directives, and what [compile] stores for it. *)
Definition plainSource : string := "void main() {}".
Definition plainBody : string := "precision mediump float;" +:+ NL +:+ "void main() {}".

(** Frames of an instance that draws [plainSource]: the defines of the
    frame vary. *)
Definition plainFrame (defs : gmap string jsval) : @FrameState unit :=
  mkFrameState false defs (SrcString plainSource) SrcAbsent tt.

(** An instance after its first frame, which defines [X] as 1. *)
Definition plainShader : Shader :=
  let fresh :=
    newShader [] (mkShaderOptions None None None
                    (mkShaderLibOptions None None None [] [])) in
  match update (E:=Ref.externals) 1 ∅ (plainFrame {["X" := VStr "1"]}) fresh with
  | Ret _ s => s
  | _ => fresh
  end.

(** A frame without sources. *)
Definition emptyFrame : @FrameState unit :=
  mkFrameState false ∅ SrcAbsent SrcAbsent tt.

(** A fresh instance with the defaults of the constructor. *)
Definition freshShader : Shader :=
  newShader [] (mkShaderOptions None None None
                  (mkShaderLibOptions None None None [] [])).

(** A frame that forces a compile with a new vertex text and a fragment
    source that throws. *)
Definition otherSource : string := "void main() { discard; }".
Definition throwingFrame : @FrameState unit :=
  mkFrameState true ∅ (SrcString otherSource)
    (SrcFunction (fun _ => inr (Thrown "no fragment"))) tt.



(** * Properties *)

(** ** Strings *)

Lemma chars_str (l : list ascii) : JS.chars (JS.str l) = l.
Proof. apply list_ascii_of_string_of_list_ascii. Qed.

Lemma str_chars (s : string) : JS.str (JS.chars s) = s.
Proof. apply string_of_list_ascii_of_string. Qed.

Lemma chars_app (a b : string) : JS.chars (a +:+ b) = JS.chars a ++ JS.chars b.
Proof. induction a as [|c a IH]; simpl; [done|]. by rewrite IH. Qed.

Lemma truthy_str (c : ascii) (l : list ascii) : JS.truthy (JS.str (c :: l)) = true.
Proof. done. Qed.

Lemma truthy_app_l (a b : string) : JS.truthy a = true → JS.truthy (a +:+ b) = true.
Proof. by destruct a. Qed.

Lemma length_string_app (a b : string) :
  String.length (a +:+ b) = String.length a + String.length b.
Proof. induction a as [|c a IH]; simpl; [done|]. by rewrite IH. Qed.

Lemma app_NL_neq (s : string) : s +:+ NL ≠ s.
Proof.
  intros H. apply (f_equal String.length) in H.
  rewrite length_string_app in H. simpl in H. lia.
Qed.

(** The first line of a text that starts with a character other than the
    line feed is not empty. *)
Lemma split_cons (sep c : ascii) (l : list ascii) :
  Ascii.eqb c sep = false →
  ∃ cur more, JS.split sep (c :: l) = (c :: cur) :: more.
Proof.
  intros Hc. simpl. rewrite Hc.
  destruct (JS.split sep l) as [|cur more]; eauto.
Qed.

Lemma join_cons_head (sep : list ascii) (c : ascii) (x : list ascii)
      (more : list (list ascii)) :
  ∃ tl, JS.join sep ((c :: x) :: more) = c :: tl.
Proof. destruct more; simpl; eauto. Qed.

Lemma split_not_nil (sep : ascii) (l : list ascii) : JS.split sep l ≠ [].
Proof.
  destruct l as [|c l]; simpl; [done|].
  destruct (Ascii.eqb c sep); [done|]. by destruct (JS.split sep l).
Qed.

Lemma split_no_sep (sep : ascii) (l : list ascii) :
  Forall (fun line => sep ∉ line) (JS.split sep l).
Proof.
  induction l as [|c l IH]; simpl.
  - constructor; [set_solver|constructor].
  - destruct (Ascii.eqb c sep) eqn:Hc.
    + constructor; [set_solver|done].
    + apply Ascii.eqb_neq in Hc.
      destruct (JS.split sep l) as [|cur more].
      * constructor; [set_solver|constructor].
      * apply Forall_cons in IH as [Hcur Hmore].
        constructor; [set_solver|done].
Qed.

Lemma split_line_sep (sep : ascii) (x rest : list ascii) :
  sep ∉ x → JS.split sep (x ++ sep :: rest) = x :: JS.split sep rest.
Proof.
  induction x as [|c x IH]; intros Hx; simpl.
  - by rewrite Ascii.eqb_refl.
  - assert (Ascii.eqb c sep = false) as -> by (apply Ascii.eqb_neq; set_solver).
    rewrite IH by set_solver. done.
Qed.

Lemma split_line (sep : ascii) (x : list ascii) :
  sep ∉ x → JS.split sep x = [x].
Proof.
  induction x as [|c x IH]; intros Hx; simpl; [done|].
  assert (Ascii.eqb c sep = false) as -> by (apply Ascii.eqb_neq; set_solver).
  rewrite IH by set_solver. done.
Qed.

(** Joining lines and splitting the text again gives the lines back. *)
Lemma split_join (sep : ascii) (ls : list (list ascii)) :
  ls ≠ [] → Forall (fun line => sep ∉ line) ls →
  JS.split sep (JS.join [sep] ls) = ls.
Proof.
  induction ls as [|x more IH]; intros Hne Hall; [done|].
  apply Forall_cons in Hall as [Hx Hmore].
  destruct more as [|y more'].
  - simpl. by apply split_line.
  - change (JS.join [sep] (x :: y :: more')) with (x ++ sep :: JS.join [sep] (y :: more')).
    rewrite split_line_sep by done. by rewrite IH.
Qed.

(** ** [hash] *)

Section HashFacts.

Lemma fold_add_acc (l : list N) (a : N) :
  fold_left (fun a b => (a + b)%N) l a = (a + fold_left (fun a b => (a + b)%N) l 0)%N.
Proof.
  revert a. induction l as [|x l IH]; intros a; simpl; [lia|].
  rewrite (IH (a + x)%N), (IH (0 + x)%N). lia.
Qed.

Lemma fold_add_perm (l1 l2 : list N) :
  l1 ≡ₚ l2 →
  fold_left (fun a b => (a + b)%N) l1 0%N = fold_left (fun a b => (a + b)%N) l2 0%N.
Proof.
  induction 1 as [|x l l' _ IH|x y l|l l' l'' _ IH1 _ IH2]; simpl.
  - done.
  - rewrite (fold_add_acc l), (fold_add_acc l'). by rewrite IH.
  - rewrite (fold_add_acc l (0 + y + x)), (fold_add_acc l (0 + x + y)). lia.
  - by rewrite IH1.
Qed.

(** C8. [hash] does not see the order of the characters: two strings whose
    characters are a permutation of each other have the same hash, and
    there are two distinct such strings. *)
Theorem hash_anagram (s1 s2 : string) :
  JS.chars s1 ≡ₚ JS.chars s2 →
  hash (Some s1) = hash (Some s2) ∧
  (∃ a b : string, a ≠ b ∧ JS.chars a ≡ₚ JS.chars b ∧ hashString a = hashString b).
Proof.
  intros Hp. split.
  - simpl. f_equal. unfold hashString, charCodeSum. f_equal.
    apply fold_add_perm. by apply fmap_Permutation.
  - exists "ab", "ba". split; [done|]. split; [|done].
    apply perm_swap.
Qed.

Lemma hash_anagram_witness :
  hash (Some "float x;") = hash (Some "x float;") ∧
  (∃ a b : string, a ≠ b ∧ JS.chars a ≡ₚ JS.chars b ∧ hashString a = hashString b).
Proof.
  apply (hash_anagram "float x;" "x float;").
  change (JS.chars "float x;") with (JS.chars "float" ++ JS.chars " x" ++ JS.chars ";").
  change (JS.chars "x float;") with (JS.chars "x " ++ JS.chars "float" ++ JS.chars ";").
  rewrite !app_assoc. apply Permutation_app_tail.
  etrans; [apply Permutation_app_comm|].
  simpl. apply perm_swap.
Defined.

End HashFacts.

(** ** The monad *)

Lemma bind_Ret {St A B} (c : M St A) (f : A → M St B) s a s' :
  c s = Ret a s' → bind c f s = f a s'.
Proof. intros H. unfold bind. by rewrite H. Qed.

Lemma bind_Throw {St A B} (c : M St A) (f : A → M St B) s e s' :
  c s = Throw e s' → bind c f s = Throw e s'.
Proof. intros H. unfold bind. by rewrite H. Qed.

Ltac run := unfold bind, gets, modify, ret, throw, zoom in *; simpl in *.

(** ** [define] *)

Section DefineFacts.
Context {E : Externals}.

Lemma defineString_spec (key : string) (value : jsval) (l : ShaderLib) :
  defineString key value l =
  match coerce value with
  | Some v =>
      if decide (defines l !! key = Some v) then Ret false l
      else Ret true (setDefine key v l)
  | None => Ret false l
  end.
Proof.
  unfold defineString.
  destruct value as [| |[|]|z|s|image]; simpl; try done; run;
    change (JS.ofInt 1) with "1" in *; change (JS.ofInt 0) with "0" in *;
    (case_bool_decide as Hd; case_decide as Hd';
     [congruence | done | done | congruence]).
Qed.

Lemma setDefine_defines (k v : string) (l : ShaderLib) :
  defines (setDefine k v l) = <[k := v]> (defines l).
Proof. done. Qed.

Lemma sameButDefines_refl l : sameButDefines l l.
Proof. by repeat split. Qed.

Lemma sameButDefines_trans l1 l2 l3 :
  sameButDefines l1 l2 → sameButDefines l2 l3 → sameButDefines l1 l3.
Proof.
  intros (?&?&?&?&?) (?&?&?&?&?). repeat split; congruence.
Qed.

Lemma defineString_table (key : string) (value : jsval) (l : ShaderLib) :
  ∃ l', defineString key value l = Ret (changesTable (defines l) (key, value)) l' ∧
        sameButDefines l l' ∧
        defines l' = match coerce value with
                     | Some x => <[key := x]> (defines l)
                     | None => defines l
                     end.
Proof.
  rewrite defineString_spec. unfold changesTable. simpl.
  destruct (coerce value) as [x|]; [|exists l; by auto using sameButDefines_refl].
  case_decide as Hd.
  - exists l. rewrite bool_decide_false by naive_solver.
    split; [done|]. split; [apply sameButDefines_refl|].
    by rewrite insert_id.
  - eexists. rewrite bool_decide_true by done.
    split; [done|]. by repeat split.
Qed.

Lemma changesTable_insert_ne (d : gmap string string) (k x : string) kv :
  fst kv ≠ k → changesTable (<[k := x]> d) kv = changesTable d kv.
Proof.
  intros Hne. unfold changesTable. destruct (coerce (snd kv)); [|done].
  by rewrite lookup_insert_ne.
Qed.

Lemma defineEntries_spec (entries : list (string * jsval)) (l : ShaderLib) :
  NoDup (entries.*1) →
  ∃ l', defineEntries entries l = Ret (map (changesTable (defines l)) entries) l' ∧
        sameButDefines l l' ∧
        defines l' = tableAfter entries (defines l).
Proof.
  revert l. induction entries as [|[k v] more IH]; intros l Hnd.
  - exists l. by auto using sameButDefines_refl.
  - simpl in Hnd. apply NoDup_cons in Hnd as [Hk Hnd].
    destruct (defineString_table k v l) as (l1 & H1 & Hs1 & Hd1).
    destruct (IH l1 Hnd) as (l2 & H2 & Hs2 & Hd2).
    exists l2. simpl. unfold bind at 1. rewrite H1.
    unfold bind at 1. rewrite H2. unfold ret.
    split; [|split; [by eapply sameButDefines_trans|]].
    + do 2 f_equal. apply map_ext_in. intros [k' v'] Hin.
      rewrite Hd1. destruct (coerce v); [|done].
      apply changesTable_insert_ne. simpl. intros ->.
      apply Hk. apply list_elem_of_fmap. exists (k, v').
      split; [done|]. by apply list_elem_of_In.
    + rewrite Hd2, Hd1. unfold tableAfter. simpl. by destruct (coerce v).
Qed.

Lemma existsb_id_map {A} (f : A → bool) (l : list A) :
  existsb (fun v => v) (map f l) = existsb f l.
Proof. induction l as [|x l IH]; simpl; [done|]. by rewrite IH. Qed.

(** C7, as the code has it. [define(name, value)] stores 1 and 0 for the
    booleans and the string of every other value that is neither [null] nor
    [undefined]; it returns [true] and writes the table exactly when that
    string differs from what the table holds under the name, and returns
    [false] with the table as it was otherwise, also for [null] and
    [undefined]. [define(map)] defines every entry and returns [true]
    exactly when one of them changes the table. *)
Theorem define_changes (key : string) (value ignored : jsval)
        (entries : list (string * jsval)) (l : ShaderLib) :
  NoDup (entries.*1) →
  (coerce (VBool true) = Some "1" ∧ coerce (VBool false) = Some "0") ∧
  define (KString key) value l =
    match coerce value with
    | Some v =>
        if decide (defines l !! key = Some v) then Ret false l
        else Ret true (setDefine key v l)
    | None => Ret false l
    end ∧
  ∃ l', define (KObject entries) ignored l =
          Ret (existsb (changesTable (defines l)) entries) l' ∧
        sameButDefines l l' ∧
        defines l' = tableAfter entries (defines l).
Proof.
  intros Hnd. split; [done|]. split; [apply defineString_spec|].
  destruct (defineEntries_spec entries l Hnd) as (l' & H & Hs & Hd).
  exists l'. split; [|done].
  simpl. unfold bind. rewrite H. unfold ret. by rewrite existsb_id_map.
Qed.

Lemma define_changes_witness :
  (coerce (VBool true) = Some "1" ∧ coerce (VBool false) = Some "0") ∧
  define (KString "X") (VBool true) emptyLib =
    Ret true (setDefine "X" "1" emptyLib) ∧
  ∃ l', define (KObject [("X", VInt 1); ("Y", VStr "a")]) VUndefined
               (setDefine "X" "1" emptyLib) = Ret true l' ∧
        sameButDefines (setDefine "X" "1" emptyLib) l' ∧
        defines l' = <["Y" := "a"]> (<["X" := "1"]> (<["X" := "1"]> ∅)).
Proof.
  apply (define_changes "X" (VBool true) VUndefined
           [("X", VInt 1); ("Y", VStr "a")] emptyLib).
  simpl. repeat constructor; set_solver.
Defined.

(** C7 as stated fails on [null]: its string is not in the table, and
    [define] returns [false] and writes nothing. *)
Lemma define_null_ignored :
  String_ VNull = "null" ∧
  defines emptyLib !! "X" ≠ Some (String_ VNull) ∧
  define (KString "X") VNull emptyLib = Ret false emptyLib.
Proof. by repeat split. Qed.

End DefineFacts.

(** ** [compile] and the cache *)

Section CompileFacts.
Context {E : Externals}.

Lemma compile_O name source l : compile 0 name source l = OutOfFuel.
Proof. done. Qed.

Lemma compile_S fuel name source :
  compile (S fuel) name source =
  compileWith (runVisit (engine (S fuel))) name source.
Proof. done. Qed.

Lemma compileWith_hit v name source l c :
  JS.truthy source = true →
  cache l !! hashString source = Some c → JS.truthy c = true →
  compileWith v name (Some source) l = Ret (Some c) l.
Proof.
  intros Hs Hc Ht. unfold compileWith. simpl. rewrite Hs. simpl.
  rewrite Hs. run. rewrite Hc. simpl. by rewrite Ht.
Qed.

Lemma compileWith_miss v name source l :
  JS.truthy source = true →
  truthyO (cache l !! hashString source) = false →
  compileWith v name (Some source) l =
  match processWith v (workingName name)
          (injectShaderNameDefine (workingName name) source) l with
  | Ret text l' =>
      let body := assemble (injectShaderPrecision l' text) in
      Ret (Some (body +:+ NL)) (setCache (hashString source) body l')
  | Throw e l' => Throw e l'
  | OutOfFuel => OutOfFuel
  end.
Proof.
  intros Hs Hc. unfold compileWith. simpl. rewrite Hs. simpl.
  rewrite Hs. run. rewrite Hc. fold (workingName name).
  by destruct (processWith _ _ _ _).
Qed.

(** The text [compile] stores is never empty: it starts with the precision
    line. *)
Lemma assemble_head (c : ascii) (s : string) :
  Ascii.eqb c nl = false → JS.truthy (assemble (String c s)) = true.
Proof.
  intros Hc. unfold assemble.
  change (JS.chars (String c s)) with (c :: JS.chars s).
  destruct (split_cons nl c (JS.chars s) Hc) as (cur & more & ->).
  simpl.
  destruct (join_cons_head [nl] c
              (if (length cur =? 0)%nat then cur ++ [nl] else cur)
              (map (λ line, if (length line =? 1)%nat then line ++ [nl] else line)
                 (List.filter (λ line, negb (length line =? 0)%nat) more)))
    as [tl_ Hj].
  destruct (length cur =? 0)%nat; simpl in *; by rewrite Hj.
Qed.

Lemma assemble_truthy (l : ShaderLib) (text : string) :
  JS.truthy (assemble (injectShaderPrecision l text)) = true.
Proof. unfold injectShaderPrecision. by apply (assemble_head "p"). Qed.

Lemma compileWith_not_null v name source l l' :
  JS.truthy source = true → compileWith v name (Some source) l ≠ Ret None l'.
Proof.
  intros Hs. destruct (truthyO (cache l !! hashString source)) eqn:Hc.
  - destruct (cache l !! hashString source) as [c|] eqn:Hl; [|done].
    by rewrite (compileWith_hit v name source l c).
  - rewrite compileWith_miss by done. by destruct (processWith _ _ _ _).
Qed.

(** C1, where the code departs from it. A call of [compile] that is not
    served from the cache returns its text with a line feed at the end and
    stores the text without it; the same call again returns what was
    stored, which is one character short of what the first call returned. *)
Theorem compile_again_drops_newline (fuel : nat) (name : option string)
        (source text : string) (l l' : ShaderLib) :
  JS.truthy source = true →
  truthyO (cache l !! hashString source) = false →
  compile fuel name (Some source) l = Ret (Some text) l' →
  ∃ body, text = body +:+ NL ∧
          compile fuel name (Some source) l' = Ret (Some body) l' ∧
          body ≠ text.
Proof.
  intros Hs Hc H. destruct fuel as [|fuel]; [done|].
  rewrite compile_S in *. rewrite compileWith_miss in H by done.
  destruct (processWith _ _ _ _) as [t l1| |]; [|done..].
  simpl in H. injection H as <- <-.
  eexists. split; [done|]. split.
  - apply compileWith_hit; [done| |apply assemble_truthy].
    simpl. apply lookup_insert_eq.
  - intros Heq. by apply (app_NL_neq _ (eq_sym Heq)).
Qed.


(** C10. With a name and the empty string as source, [compile] takes the
    text of the name for the source and works as an anonymous shader. The
    key of the cache is the hash of the name: when the cache holds a text
    under it that text is returned, and when it does not the name is run
    through [process] as the text of an anonymous shader, which walks it
    under the root of the store, and the result is stored under the hash
    of the name and returned with a line feed. The call does not return
    [null]. [get] for a fragment that was added with the empty string as
    its source is this call with the path as the name. *)
Theorem compile_empty_source_takes_name (fuel : nat) (name : string)
        (l : ShaderLib) :
  JS.truthy name = true →
  compile fuel (Some name) (Some "") l = compile fuel None (Some name) l ∧
  compile fuel None (Some name) l =
    compile fuel (Some kAnonymousShaderName) (Some name) l ∧
  (∀ l', compile fuel (Some name) (Some "") l ≠ Ret None l') ∧
  (store l !! name = Some "" →
   get fuel name l = compile fuel None (Some name) l ∧
   get fuel name l = compile fuel (Some name) (Some "") l) ∧
  (∀ c, cache l !! hashString name = Some c → JS.truthy c = true →
        compile (S fuel) (Some name) (Some "") l = Ret (Some c) l) ∧
  (truthyO (cache l !! hashString name) = false →
   compile (S fuel) (Some name) (Some "") l
   = match process (S fuel) kAnonymousShaderName
             (injectShaderNameDefine kAnonymousShaderName name) l with
     | Ret text l' =>
         let body := assemble (injectShaderPrecision l' text) in
         Ret (Some (body +:+ NL)) (setCache (hashString name) body l')
     | Throw e l' => Throw e l'
     | OutOfFuel => OutOfFuel
     end) ∧
  (∀ source,
     ∃ finish : Walk → string,
       process (S fuel) kAnonymousShaderName source l
       = match runVisit (engine (S fuel))
                 (NL +:+ injectDefines source (defines l) +:+ NL) "/"
                 (mkWalk l [] []) with
         | Ret _ w => Ret (finish w) (lib w)
         | Throw e w => Throw e (lib w)
         | OutOfFuel => OutOfFuel
         end) ∧
  compile (E:=Ref.externals) 1 (Some "std") (Some "") (add "std" "" emptyLib)
  = Ret (Some ("precision mediump float;" +:+ NL +:+ "std" +:+ NL))
        (setCache (hashString "std") ("precision mediump float;" +:+ NL +:+ "std")
           (add "std" "" emptyLib)).
Proof.
  intros Hn.
  assert (Heq : ∀ fuel, compile fuel (Some name) (Some "") l
                        = compile fuel None (Some name) l).
  { intros [|fuel']; [done|]. rewrite !compile_S.
    unfold compileWith. simpl. by rewrite Hn. }
  split; [done|]. split; [|split; [|split; [|split; [|split; [|split]]]]].
  - destruct fuel as [|fuel]; [done|]. rewrite !compile_S.
    unfold compileWith. simpl. by rewrite Hn.
  - intros l'. rewrite Heq. destruct fuel as [|fuel]; [done|].
    rewrite compile_S. by apply compileWith_not_null.
  - intros Hst.
    assert (get fuel name l = compile fuel (Some name) (Some "") l) as Hg.
    { unfold get, getWith. run. by rewrite Hst. }
    split; [by rewrite Hg|done].
  - intros c Hc Ht. rewrite Heq, compile_S. by apply compileWith_hit.
  - intros Hc. rewrite Heq, compile_S. by rewrite compileWith_miss.
  - intros source. unfold process, processWith.
    rewrite bool_decide_false by (by intros H; apply H).
    by eexists (λ w, _).
  - by vm_compute.
Qed.

End CompileFacts.

Lemma compile_again_drops_newline_witness :
  ∃ body, plainBody +:+ NL = body +:+ NL ∧
          compile (E:=Ref.externals) 1 (Some "triangle") (Some plainSource)
            (setCache (hashString plainSource) plainBody emptyLib)
          = Ret (Some body) (setCache (hashString plainSource) plainBody emptyLib) ∧
          body ≠ plainBody +:+ NL.
Proof.
  apply (compile_again_drops_newline (E:=Ref.externals) 1 (Some "triangle")
           plainSource (plainBody +:+ NL) emptyLib); by vm_compute.
Defined.



Lemma compile_empty_source_takes_name_witness :
  let l := add "light" "" emptyLib in
  let walked := "precision mediump float;" +:+ NL +:+ "light" in
  get (E:=Ref.externals) 1 "light" l
  = compile (E:=Ref.externals) 1 (Some "light") (Some "") l ∧
  compile (E:=Ref.externals) 1 (Some "light") (Some "") l
  = Ret (Some (walked +:+ NL)) (setCache (hashString "light") walked l) ∧
  compile (E:=Ref.externals) 1 (Some "light") (Some "")
    (setCache (hashString "light") walked l)
  = Ret (Some walked) (setCache (hashString "light") walked l).
Proof.
  intros l walked.
  destruct (compile_empty_source_takes_name (E:=Ref.externals) 0 "light" l eq_refl)
    as (_ & _ & _ & _ & _ & Hmiss & _).
  destruct (compile_empty_source_takes_name (E:=Ref.externals) 1 "light" l eq_refl)
    as (_ & _ & _ & Hget & _).
  destruct (compile_empty_source_takes_name (E:=Ref.externals) 0 "light"
              (setCache (hashString "light") walked l) eq_refl)
    as (_ & _ & _ & _ & Hhit & _).
  split; [by apply Hget|]. split.
  - rewrite Hmiss by reflexivity. by vm_compute.
  - apply Hhit; by vm_compute.
Defined.

(** ** The matcher on a text that is known in part *)

Section StarFacts.
Context {R : Type}.
Variable p : ascii → bool.
Variable step : list ascii → Re.caps → @Re.cont R → option R.
Hypothesis step_char : ∀ s cs k,
  step s cs k = match s with
                | c :: s' => if p c then k s' cs else None
                | [] => None
                end.

Lemma star_greedy (run s : list ascii) (n : nat) cs (k : @Re.cont R) x :
  Forall (λ c, p c = true) run →
  match s with c :: _ => p c = false | [] => True end →
  (length run ≤ n)%nat →
  k s cs = Some x →
  Re.star step n (run ++ s) cs k = Some x.
Proof.
  intros Hrun Hs. revert n. induction Hrun as [|c run Hc Hrun IH]; intros n Hn Hk.
  - destruct n as [|n]; [done|]. cbn [Re.star app]. rewrite step_char.
    destruct s as [|c s']; [by rewrite Hk|]. by rewrite Hs, Hk.
  - destruct n as [|n]; [simpl in Hn; lia|].
    cbn [Re.star app]. rewrite step_char, Hc.
    assert ((length (run ++ s) <? length (c :: run ++ s))%nat = true) as ->
      by (apply Nat.ltb_lt; simpl; lia).
    rewrite IH; [done|simpl in Hn; lia|done].
Qed.

Lemma star_back (run : list ascii) (z : ascii) (n : nat) cs (k : @Re.cont R) x :
  Forall (λ c, p c = true) run → p z = true →
  (S (length run) ≤ n)%nat →
  k [] cs = None → k [z] cs = Some x →
  Re.star step n (run ++ [z]) cs k = Some x.
Proof.
  intros Hrun Hz. revert n. induction Hrun as [|c run Hc Hrun IH]; intros n Hn H0 H1.
  - destruct n as [|n]; [simpl in Hn; lia|]. cbn [Re.star app].
    rewrite step_char, Hz. cbn [length Nat.ltb Nat.leb].
    assert (Re.star step n [] cs k = None) as ->.
    { destruct n as [|n']; [done|]. cbn [Re.star]. by rewrite step_char, H0. }
    done.
  - destruct n as [|n]; [simpl in Hn; lia|].
    cbn [Re.star app]. rewrite step_char, Hc.
    assert ((length (run ++ [z]) <? length (c :: run ++ [z]))%nat = true) as ->
      by (apply Nat.ltb_lt; simpl; lia).
    rewrite IH; [done|simpl in Hn; lia|done..].
Qed.

End StarFacts.
Section MatchFacts.
Context {R : Type}.
Variable total : nat.
Implicit Types (k : @Re.cont R) (s : list ascii) (cs : Re.caps).

Lemma stripPrefix_app (l s : list ascii) : JS.stripPrefix l (l ++ s) = Some s.
Proof. induction l as [|c l IH]; [by destruct s|]. simpl. by rewrite Ascii.eqb_refl. Qed.

Lemma m_Lit_app (l : string) s cs k :
  Re.m total (Re.Lit l) (JS.chars l ++ s) cs k = k s cs.
Proof. cbn [Re.m]. by rewrite stripPrefix_app. Qed.

Lemma m_Set_char (C : list Re.citem) s cs k :
  Re.m total (Re.Set_ C) s cs k =
  match s with
  | c :: s' => if Re.inClass C c then k s' cs else None
  | [] => None
  end.
Proof. done. Qed.

Lemma m_Dot_char s cs k :
  Re.m total Re.Dot s cs k =
  match s with
  | c :: s' => if negb (JS.isLineTerminator c) then k s' cs else None
  | [] => None
  end.
Proof. destruct s as [|c s']; [done|]. simpl. by destruct (JS.isLineTerminator c). Qed.

Lemma m_Opt_Set_no (C : list Re.citem) c s cs k :
  Re.inClass C c = false →
  Re.m total (Re.Opt (Re.Set_ C)) (c :: s) cs k = k (c :: s) cs.
Proof. intros H. cbn [Re.m]. by rewrite H. Qed.

Lemma m_Opt_Set_nil (C : list Re.citem) cs k :
  Re.m total (Re.Opt (Re.Set_ C)) [] cs k = k [] cs.
Proof. done. Qed.

Lemma m_Opt_Set_yes (C : list Re.citem) c s cs k x :
  Re.inClass C c = true → k s cs = Some x →
  Re.m total (Re.Opt (Re.Set_ C)) (c :: s) cs k = Some x.
Proof. intros H Hk. cbn [Re.m]. by rewrite H, Hk. Qed.

(** A greedy [+] over a class takes a whole run of its characters. *)
Lemma m_Plus_run (C : list Re.citem) c run s cs k x :
  Forall (λ c, Re.inClass C c = true) (c :: run) →
  match s with c :: _ => Re.inClass C c = false | [] => True end →
  k s cs = Some x →
  Re.m total (Re.Plus (Re.Set_ C)) ((c :: run) ++ s) cs k = Some x.
Proof.
  intros Hrun Hs Hk. apply Forall_cons in Hrun as [Hc Hrun].
  cbn [Re.m app]. rewrite Hc.
  apply (star_greedy (Re.inClass C) _ (m_Set_char C)); try done.
  rewrite length_app. lia.
Qed.

(** A greedy [.*] takes the rest of a line when the pattern can end there. *)
Lemma m_StarDot_all run cs k x :
  Forall (λ c, JS.isLineTerminator c = false) run →
  k [] cs = Some x →
  Re.m total (Re.Star Re.Dot) run cs k = Some x.
Proof.
  intros Hrun Hk. cbn [Re.m].
  rewrite <- (app_nil_r run) at 2.
  apply (star_greedy (λ c, negb (JS.isLineTerminator c)) _ m_Dot_char); try done.
  eapply Forall_impl; [done|]. by intros c ->.
Qed.

(** It gives the last character back when the pattern needs one more. *)
Lemma m_StarDot_back run z cs k x :
  Forall (λ c, JS.isLineTerminator c = false) run →
  JS.isLineTerminator z = false →
  k [] cs = None → k [z] cs = Some x →
  Re.m total (Re.Star Re.Dot) (run ++ [z]) cs k = Some x.
Proof.
  intros Hrun Hz H0 H1. cbn [Re.m].
  apply (star_back (λ c, negb (JS.isLineTerminator c)) _ m_Dot_char); try done.
  - eapply Forall_impl; [done|]. by intros c ->.
  - by rewrite Hz.
  - rewrite length_app. simpl. lia.
Qed.

End MatchFacts.

Lemma search_here (total : nat) (r : Re.regex) (pre : nat) (s : list ascii) x :
  Re.m total r s []
    (λ s' cs, Some (Re.mkResult pre (firstn (length s - length s') s) cs s'))
  = Some x →
  Re.search total r pre s = Some x.
Proof. intros H. destruct s; cbn [Re.search]; by rewrite H. Qed.

Lemma take_behind {A} (l1 l2 : list A) :
  firstn (length (l1 ++ l2) - length l2) (l1 ++ l2) = l1.
Proof.
  rewrite length_app.
  replace (length l1 + length l2 - length l2)%nat with (length l1) by lia.
  apply take_app_length.
Qed.

Lemma space_not_letter (c : ascii) :
  JS.isSpace c = true → Re.inClass [Re.CRange "a" "z"] c = false.
Proof. by destruct c as [[] [] [] [] [] [] [] []]. Qed.

Lemma lineTerminator_space (c : ascii) :
  JS.isSpace c = false → JS.isLineTerminator c = false.
Proof. by destruct c as [[] [] [] [] [] [] [] []]. Qed.

(** What the two patterns of [visit] find in an [#include] token: the
    directive, and the argument as the text behind the white space. *)
Lemma exec_directive_include (w : ascii) (rest : list ascii) :
  JS.isSpace w = true →
  Re.exec Pat.directive (JS.chars "#include" ++ w :: rest)
  = Some (Re.mkResult 0 (JS.chars "#include" ++ [w]) [(1, JS.chars "#include")] rest).
Proof.
  intros Hw. unfold Re.exec. apply search_here.
  unfold Pat.directive, Pat.cat.
  set (data := JS.chars "#include" ++ w :: rest).
  cbn [Re.m].
  change data with (JS.chars "#" ++ (JS.chars "include" ++ w :: rest)) at 1.
  rewrite stripPrefix_app.
  change (JS.chars "include" ++ w :: rest)
    with (("i"%char :: JS.chars "nclude") ++ w :: rest).
  cbn [app].
  change (Re.inClass [Re.CRange "a" "z"] "i") with true. cbv iota.
  apply (star_greedy (Re.inClass [Re.CRange "a" "z"]) _ (m_Set_char 0 _)).
  - by repeat constructor.
  - by apply space_not_letter.
  - rewrite length_app. lia.
  - unfold Pat.s. cbn [Re.m Re.inClass existsb Re.inItem]. rewrite Hw. cbn [orb].
    f_equal. f_equal.
    + apply (take_behind (JS.chars "#include" ++ [w]) rest).
    + do 2 f_equal. apply (take_behind (JS.chars "#include") (w :: rest)).
Qed.

Lemma m_Seq {R} total (r1 r2 : Re.regex) s cs (k : @Re.cont R) :
  Re.m total (Re.Seq r1 r2) s cs k
  = Re.m total r1 s cs (λ s' cs', Re.m total r2 s' cs' k).
Proof. done. Qed.

Lemma m_Grp {R} total (i : nat) (r : Re.regex) s cs (k : @Re.cont R) :
  Re.m total (Re.Grp i r) s cs k
  = Re.m total r s cs (λ s' cs', k s' ((i, firstn (length s - length s') s) :: cs')).
Proof. done. Qed.

Lemma take_whole {A} (l : list A) : firstn (length l - length (@nil A)) l = l.
Proof. simpl. rewrite Nat.sub_0_r. apply firstn_all. Qed.

Lemma exec_include (w a : ascii) (ws rest : list ascii) :
  Forall (λ c, JS.isSpace c = true) (w :: ws) →
  JS.isSpace a = false →
  Forall (λ c, JS.isLineTerminator c = false) rest →
  Re.exec Pat.include (JS.chars "#include" ++ (w :: ws) ++ a :: rest)
  = Some (Re.mkResult 0 (JS.chars "#include" ++ (w :: ws) ++ a :: rest)
            [(1, a :: rest)] []).
Proof.
  intros Hws Ha Hrest. unfold Re.exec. apply search_here.
  unfold Pat.include. cbn [Pat.cat].
  set (data := JS.chars "#include" ++ (w :: ws) ++ a :: rest).
  generalize (length data) at 1. intros total.
  set (k0 := λ s' cs, Some (Re.mkResult 0 (take (length data - length s') data) cs s')).
  assert (Hend : k0 [] [(1, a :: rest)]
                 = Some (Re.mkResult 0 data [(1, a :: rest)] [])).
  { unfold k0. by rewrite take_whole. }
  clearbody k0. subst data.
  rewrite m_Seq.
  change (JS.chars "#include" ++ (w :: ws) ++ a :: rest)
    with ("#"%char :: (JS.chars "include" ++ (w :: ws) ++ a :: rest)) at 1.
  rewrite m_Opt_Set_no by done.
  change ("#"%char :: (JS.chars "include" ++ (w :: ws) ++ a :: rest))
    with (JS.chars "#include" ++ ((w :: ws) ++ a :: rest)).
  rewrite m_Seq, m_Lit_app, m_Seq.
  apply m_Plus_run.
  { eapply Forall_impl; [done|]. intros c Hc. simpl. by rewrite Hc. }
  { simpl. by rewrite Ha. }
  cbv beta. rewrite m_Seq, m_Grp, !m_Seq.
  assert (Hall : Forall (λ c, JS.isLineTerminator c = false) (a :: rest)).
  { constructor; [by apply lineTerminator_space|done]. }
  destruct (Re.inClass [Re.CChr "<"; Pat.bar; Re.CChr dquote] a) eqn:Hopen.
  - apply m_Opt_Set_yes; [done|]. cbv beta.
    apply m_StarDot_all; [done|]. cbv beta.
    rewrite ?m_Opt_Set_nil. cbn [Re.m]. by rewrite !take_whole.
  - rewrite m_Opt_Set_no by done. apply m_StarDot_all; [done|]. cbv beta.
    rewrite ?m_Opt_Set_nil. cbn [Re.m]. by rewrite !take_whole.
Qed.

Lemma exec_delimited (a z : ascii) (p : list ascii) :
  Re.inClass [Re.CChr dquote; Pat.bar; Re.CChr "<"] a = true →
  Re.inClass [Re.CChr dquote; Pat.bar; Re.CChr ">"] z = true →
  Forall (λ c, JS.isLineTerminator c = false) p →
  JS.isLineTerminator z = false →
  Re.exec Pat.delimited (a :: p ++ [z])
  = Some (Re.mkResult 0 (a :: p ++ [z]) [(1, p)] []).
Proof.
  intros Ha Hz Hp Hzl. unfold Re.exec. apply search_here.
  unfold Pat.delimited. cbn [Pat.cat].
  rewrite m_Seq. cbn [Re.m]. rewrite Nat.eqb_refl, Ha.
  change (Re.star _ (length (p ++ [z])) (p ++ [z]) [] ?k)
    with (Re.m (length (a :: p ++ [z])) (Re.Star Re.Dot) (p ++ [z]) [] k).
  apply m_StarDot_back; [done|done|done|]. cbv beta iota. rewrite Hz.
  by rewrite take_whole, (take_behind p [z]).
Qed.

(** [trim] on a text whose ends are not white space. *)
Lemma trimStart_head (a : ascii) (l : list ascii) :
  JS.isSpace a = false → JS.trimStart (a :: l) = a :: l.
Proof. intros H. simpl. by rewrite H. Qed.

Lemma trim_ends (a z : ascii) (p : list ascii) :
  JS.isSpace a = false → JS.isSpace z = false →
  JS.trim (a :: p ++ [z]) = a :: p ++ [z].
Proof.
  intros Ha Hz. unfold JS.trim, JS.trimEnd. rewrite trimStart_head by done.
  change (a :: p ++ [z]) with ((a :: p) ++ [z]).
  rewrite rev_unit, trimStart_head by done.
  change (z :: rev (a :: p)) with (rev [z] ++ rev (a :: p)).
  by rewrite <- rev_app_distr, rev_involutive.
Qed.

Lemma trim_single (a : ascii) : JS.isSpace a = false → JS.trim [a] = [a].
Proof. intros Ha. unfold JS.trim, JS.trimEnd. simpl. rewrite Ha. simpl. by rewrite Ha. Qed.

Lemma nth_error_last {A} (a z : A) (p : list A) :
  nth_error (a :: p ++ [z]) (length (a :: p ++ [z]) - 1) = Some z.
Proof.
  change (a :: p ++ [z]) with ((a :: p) ++ [z]).
  rewrite length_app. simpl length.
  replace (S (length p) + 1 - 1)%nat with (length (a :: p)) by (simpl; lia).
  by rewrite nth_error_app2, Nat.sub_diag.
Qed.

(** The argument of an [#include] token, its path and its two ends, as
    [visit] reads them. *)
Lemma charAtTrim_first (a z : ascii) (p : list ascii) :
  JS.isSpace a = false →
  charAtTrim (a :: p ++ [z]) 0 = Some (JS.str [a]).
Proof. intros Ha. unfold charAtTrim. simpl nth_error. simpl fmap. by rewrite trim_single. Qed.

Lemma charAtTrim_last (a z : ascii) (p : list ascii) :
  JS.isSpace z = false →
  charAtTrim (a :: p ++ [z]) (length (a :: p ++ [z]) - 1) = Some (JS.str [z]).
Proof.
  intros Hz. unfold charAtTrim. rewrite nth_error_last. simpl fmap.
  by rewrite trim_single.
Qed.

(** ** Includes *)

Lemma parseInclude_ret (tokenData root : string) (w w' : Walk) (inc : Include) :
  parseInclude tokenData root w = Ret inc w' →
  w' = w ∧
  (charAtTrim (JS.chars (incArg inc)) 0 = Some "<" ∧ incRoot inc = "/" ∨
   charAtTrim (JS.chars (incArg inc)) 0 = Some DQ ∧ incRoot inc = root) ∧
  incResolved inc =
    resolve ((match JS.chars (incPath inc) with
              | c :: _ => if Ascii.eqb c "." then "" else "./"
              | [] => "./"
              end) +:+ incPath inc) (incRoot inc).
Proof.
  unfold parseInclude.
  destruct (Re.exec Pat.include (JS.chars tokenData) ≫= Re.group 1) as [arg|]; [|done].
  destruct (charAtTrim arg 0) as [left_|] eqn:Hl; [|done].
  destruct (if (length (JS.trim arg) =? 0)%nat then None else _) as [right_|]; [|done].
  unfold throwError, createError. run.
  repeat (case_bool_decide; simpl; try done);
    intros [= <- <-]; simpl; rewrite !chars_str;
    (split; [done|]); (split; [|done]); rewrite Hl; subst;
    set_solver.
Qed.

Lemma include_arg (ws : list ascii) (a : ascii) (rest : list ascii) :
  blanks ws → JS.isSpace a = false → oneLine rest →
  Re.exec Pat.include (JS.chars (includeData ws (a :: rest))) ≫= Re.group 1
  = Some (a :: rest).
Proof.
  intros [Hne Hws] Ha Hrest. destruct ws as [|w ws]; [done|].
  unfold includeData. by rewrite chars_str, exec_include.
Qed.

Lemma include_directive (ws arg : list ascii) :
  blanks ws →
  (λ r, JS.str (JS.trim (Re.matched r))) <$>
    Re.exec Pat.directive (JS.chars (includeData ws arg))
  = Some "#include".
Proof.
  intros [Hne Hws]. destruct ws as [|w ws]; [done|].
  apply Forall_cons in Hws as [Hw _].
  unfold includeData. rewrite chars_str.
  change ((w :: ws) ++ arg) with (w :: (ws ++ arg)).
  rewrite exec_directive_include by done. simpl fmap. f_equal.
  unfold JS.trim, JS.trimEnd. simpl. by rewrite Hw.
Qed.


Ltac include_ends :=
  unfold parseInclude;
  rewrite include_arg
    by first [done
             | apply Forall_app; split;
               [done|repeat constructor; by apply lineTerminator_space]];
  rewrite charAtTrim_first by done;
  rewrite trim_ends by done;
  rewrite charAtTrim_last by done;
  cbn [length Nat.eqb].




Lemma dotted_prefix (path : list ascii) :
  match path with
  | [] => "./"
  | c :: _ => if (c =? ".")%char then "" else "./"
  end +:+ JS.str path = dotted (JS.str path).
Proof.
  unfold dotted. rewrite chars_str. destruct path as [|c path]; [done|].
  by destruct (c =? ".")%char.
Qed.

Lemma replace_delimited (a z : ascii) (p : list ascii) :
  Re.inClass [Re.CChr dquote; Pat.bar; Re.CChr "<"] a = true →
  Re.inClass [Re.CChr dquote; Pat.bar; Re.CChr ">"] z = true →
  oneLine p → JS.isLineTerminator z = false →
  Re.replace Pat.delimited (λ r, default [] (Re.group 1 r)) (a :: p ++ [z]) = p.
Proof.
  intros Ha Hz Hp Hzl. unfold Re.replace. rewrite exec_delimited by done.
  simpl. apply app_nil_r.
Qed.

Lemma parseInclude_quoted ws p root w :
  blanks ws → oneLine p →
  parseInclude (includeData ws (dquote :: p ++ [dquote])) root w
  = Ret (mkInclude (JS.str (dquote :: p ++ [dquote])) (JS.str (JS.trim p)) root
           (resolve (dotted (JS.str (JS.trim p))) root)) w.
Proof.
  intros Hws Hp. include_ends.
  rewrite replace_delimited by done.
  rewrite dotted_prefix. done.
Qed.

Lemma parseInclude_angle ws p root w :
  blanks ws → oneLine p →
  parseInclude (includeData ws ("<"%char :: p ++ [">"%char])) root w
  = Ret (mkInclude (JS.str ("<"%char :: p ++ [">"%char])) (JS.str (JS.trim p)) "/"
           (resolve (dotted (JS.str (JS.trim p))) "/")) w.
Proof.
  intros Hws Hp. include_ends.
  rewrite replace_delimited by done.
  rewrite dotted_prefix. done.
Qed.

Section IncludeFacts.
Context {E : Externals}.
Variable getRec : string → M ShaderLib (option string).
Variable visitRec : string → string → M Walk unit.


Lemma visitToken_include_found (t : Token) (root : string) (w : Walk)
      (inc : Include) (text : string) (l' : ShaderLib) :
  type t = kGLSLTokenPreprocecsor →
  (λ r, JS.str (JS.trim (Re.matched r))) <$>
    Re.exec Pat.directive (JS.chars (data t)) = Some "#include" →
  parseInclude (data t) root w = Ret inc w →
  getRec (incResolved inc) (lib w) = Ret (Some text) l' →
  JS.truthy text = true →
  visitToken getRec visitRec t root w
  = match visitRec (text +:+ NL) (incRoot inc)
            (mkWalk l' (stack w)
               (includeStack w ++
                [incPath inc +:+ ":" +:+ JS.ofInt (Z.of_nat (line t))])) with
    | Ret _ w2 => Ret tt (mkWalk (lib w2) (stack w2) (removelast (includeStack w2)))
    | Throw e w2 => Throw e w2
    | OutOfFuel => OutOfFuel
    end.
Proof.
  intros Ht Hd Hp Hg Htext. unfold visitToken. rewrite Ht.
  destruct (Re.exec Pat.directive (JS.chars (data t))) as [res|]; [|done].
  simpl in Hd. injection Hd as Hd. rewrite Hd.
  change (bool_decide ("#include" = "#define")) with false.
  change (bool_decide ("#include" = "#include")) with true. cbv iota.
  rewrite (bind_Ret _ _ _ _ _ Hp).
  unfold bind at 1, onLib at 1, zoom. rewrite Hg. rewrite Htext.
  unfold bind, pushInclude, popInclude, modify. simpl.
  by destruct (visitRec _ _ _).
Qed.


End IncludeFacts.



(** ** Paths made of clean segments *)

Lemma plainSegment_clean (seg : list ascii) : plainSegment seg → cleanSegment seg.
Proof.
  intros (Hne & Hs & Hd). repeat split; try done.
  - intros H. apply (f_equal JS.chars) in H. rewrite chars_str in H.
    subst seg. apply Hd. by left.
  - intros H. apply (f_equal JS.chars) in H. rewrite chars_str in H.
    subst seg. apply Hd. by left.
Qed.

Lemma normalize_plain (parts acc : list (list ascii)) :
  Forall cleanSegment parts →
  Path.normalize parts acc = rev acc ++ parts.
Proof.
  revert acc. induction parts as [|p more IH]; intros acc Hparts; simpl.
  - by rewrite app_nil_r.
  - apply Forall_cons in Hparts as [(Hne & Hdot & Hdots & _) Hmore].
    destruct p as [|c p']; [done|].
    destruct (String.eqb_spec (JS.str (c :: p')) ".") as [|_]; [done|].
    destruct (String.eqb_spec (JS.str (c :: p')) "..") as [|_]; [done|].
    rewrite IH by done. simpl. by rewrite <- app_assoc.
Qed.

Lemma normalize_app (parts rest acc : list (list ascii)) :
  Forall cleanSegment parts →
  Path.normalize (parts ++ rest) acc = Path.normalize rest (rev parts ++ acc).
Proof.
  revert acc. induction parts as [|p more IH]; intros acc Hparts; [done|].
  apply Forall_cons in Hparts as [(Hne & Hdot & Hdots & _) Hmore].
  simpl. destruct p as [|c p']; [done|].
  destruct (String.eqb_spec (JS.str (c :: p')) ".") as [|_]; [done|].
  destruct (String.eqb_spec (JS.str (c :: p')) "..") as [|_]; [done|].
  rewrite IH by done. simpl. by rewrite <- app_assoc.
Qed.

Lemma join_snoc (segs : list (list ascii)) (seg : list ascii) :
  segs ≠ [] →
  JS.join [Path.slash] (segs ++ [seg])
  = JS.join [Path.slash] segs ++ Path.slash :: seg.
Proof.
  induction segs as [|x more IH]; intros Hne; [done|].
  destruct more as [|y more'].
  - done.
  - change (JS.join [Path.slash] ((x :: y :: more') ++ [seg]))
      with (x ++ Path.slash :: JS.join [Path.slash] ((y :: more') ++ [seg])).
    rewrite IH by done.
    change (JS.join [Path.slash] (x :: y :: more'))
      with (x ++ Path.slash :: JS.join [Path.slash] (y :: more')).
    by rewrite <- app_assoc.
Qed.

Lemma split_join_app (segs : list (list ascii)) (rest : list ascii) :
  segs ≠ [] → Forall (λ seg, Path.slash ∉ seg) segs →
  JS.split Path.slash (JS.join [Path.slash] segs ++ Path.slash :: rest)
  = segs ++ JS.split Path.slash rest.
Proof.
  induction segs as [|x more IH]; intros Hne Hall; [done|].
  apply Forall_cons in Hall as [Hx Hmore].
  destruct more as [|y more'].
  - simpl JS.join. by rewrite split_line_sep.
  - change (JS.join [Path.slash] (x :: y :: more'))
      with (x ++ Path.slash :: JS.join [Path.slash] (y :: more')).
    rewrite <- app_assoc.
    change ((Path.slash :: JS.join [Path.slash] (y :: more')) ++ Path.slash :: rest)
      with (Path.slash :: (JS.join [Path.slash] (y :: more') ++ Path.slash :: rest)).
    rewrite split_line_sep by done. by rewrite IH.
Qed.

Lemma join_head (x : list ascii) (more : list (list ascii)) :
  ∃ tail, JS.join [Path.slash] (x :: more) = x ++ tail.
Proof.
  destruct more as [|y more']; [exists []; by rewrite app_nil_r|].
  by exists (Path.slash :: JS.join [Path.slash] (y :: more')).
Qed.

Lemma isAbsolute_join (segs : list (list ascii)) :
  Forall cleanSegment segs → Path.isAbsolute (pathOf segs) = false.
Proof.
  intros Hall. unfold Path.isAbsolute, pathOf. rewrite chars_str.
  destruct segs as [|x more]; [done|].
  apply Forall_cons in Hall as [(Hne & _ & _ & Hs) _].
  destruct (join_head x more) as [tail ->].
  destruct x as [|c x']; [done|]. simpl.
  apply Ascii.eqb_neq. intros ->. apply Hs. by left.
Qed.

Lemma resolve_root_join (segs : list (list ascii)) :
  Forall cleanSegment segs →
  Path.resolve "/" (pathOf segs) = JS.str (Path.slash :: JS.join [Path.slash] segs).
Proof.
  intros Hall. unfold Path.resolve. rewrite isAbsolute_join by done.
  unfold pathOf. rewrite chars_str.
  change (JS.chars "/" ++ [Path.slash] ++ JS.join [Path.slash] segs)
    with ([] ++ Path.slash :: ([] ++ Path.slash :: JS.join [Path.slash] segs)).
  rewrite !split_line_sep by set_solver.
  destruct segs as [|x more]; [done|].
  rewrite split_join; [|done|].
  - change (Path.normalize ([] :: [] :: x :: more) [])
      with (Path.normalize (x :: more) []).
    by rewrite normalize_plain.
  - eapply Forall_impl; [done|]. by intros seg (_ & _ & _ & ?).
Qed.

Lemma takeToSlash_app (x y : list ascii) :
  Path.slash ∉ x → Path.takeToSlash (x ++ Path.slash :: y) = x.
Proof.
  induction x as [|c x IH]; intros Hx; simpl; [done|].
  assert (Path.isSlash c = false) as ->
    by (apply Ascii.eqb_neq; intros ->; apply Hx; by left).
  rewrite IH; [done|]. intros H. apply Hx. by right.
Qed.

Lemma dropToSlash_app (x y : list ascii) :
  Path.slash ∉ x → Path.dropToSlash (x ++ Path.slash :: y) = Path.slash :: y.
Proof.
  induction x as [|c x IH]; intros Hx; simpl; [done|].
  assert (Path.isSlash c = false) as ->
    by (apply Ascii.eqb_neq; intros ->; apply Hx; by left).
  apply IH. intros H. apply Hx. by right.
Qed.

Lemma dropToSlash_none (x : list ascii) :
  Path.slash ∉ x → Path.dropToSlash x = [].
Proof.
  induction x as [|c x IH]; intros Hx; simpl; [done|].
  assert (Path.isSlash c = false) as ->
    by (apply Ascii.eqb_neq; intros ->; apply Hx; by left).
  apply IH. intros H. apply Hx. by right.
Qed.

Lemma dropSlashes_head (x : list ascii) :
  match x with c :: _ => c ≠ Path.slash | [] => True end →
  Path.dropSlashes x = x.
Proof.
  destruct x as [|c x]; [done|]. intros Hc. simpl.
  by assert (Path.isSlash c = false) as -> by (by apply Ascii.eqb_neq).
Qed.

Lemma lastDot_none (l : list ascii) (i : nat) :
  Path.dot ∉ l → Path.lastDot l i None = None.
Proof.
  revert i. induction l as [|c l IH]; intros i Hl; simpl; [done|].
  assert (Ascii.eqb c Path.dot = false) as ->
    by (apply Ascii.eqb_neq; intros ->; apply Hl; by left).
  apply IH. intros H. apply Hl. by right.
Qed.

Lemma elem_of_rev {A} (x : A) (l : list A) : x ∈ rev l ↔ x ∈ l.
Proof. rewrite !list_elem_of_In. symmetry. apply in_rev. Qed.

Lemma rev_head_not_slash (x y : list ascii) :
  x ≠ [] → Path.slash ∉ x →
  match rev x ++ y with c :: _ => c ≠ Path.slash | [] => True end.
Proof.
  intros Hne Hx. destruct (rev x) as [|c r] eqn:Hr.
  - apply (f_equal (@rev ascii)) in Hr. rewrite rev_involutive in Hr. by subst.
  - simpl. intros ->. apply Hx.
    assert (Path.slash ∈ rev x) as Hin by (rewrite Hr; by left).
    by apply (proj1 (elem_of_rev _ _)) in Hin.
Qed.

(** The name behind the last slash has no extension when it has no dot. *)
Lemma extname_plain (pre last : list ascii) :
  last ≠ [] → Path.slash ∉ last → Path.dot ∉ last →
  Path.extname (JS.str (pre ++ Path.slash :: last)) = "".
Proof.
  intros Hne Hs Hd. unfold Path.extname. rewrite chars_str.
  rewrite rev_app_distr. simpl rev. rewrite <- app_assoc. simpl app.
  rewrite dropSlashes_head by (by apply rev_head_not_slash).
  rewrite takeToSlash_app by (by rewrite elem_of_rev).
  rewrite rev_involutive. by rewrite lastDot_none.
Qed.

Lemma dotted_plain (x : list ascii) (more : list (list ascii)) :
  plainSegment x →
  JS.chars (dotted (pathOf (x :: more)))
  = Path.dot :: Path.slash :: JS.join [Path.slash] (x :: more).
Proof.
  intros (Hne & _ & Hd). unfold dotted, pathOf. rewrite chars_str.
  destruct (join_head x more) as [tail Hj]. rewrite Hj.
  destruct x as [|c x']; [done|]. simpl app. cbv iota.
  assert ((c =? ".")%char = false) as ->
    by (apply Ascii.eqb_neq; intros ->; apply Hd; by left).
  change (JS.chars ("./" +:+ ?t)) with (Path.dot :: Path.slash :: JS.chars t).
  by rewrite chars_str.
Qed.

Lemma join_split_last (segs : list (list ascii)) :
  segs ≠ [] →
  ∃ pre last_, Path.dot :: Path.slash :: JS.join [Path.slash] segs
               = pre ++ Path.slash :: last_ ∧
               last_ ∈ segs.
Proof.
  intros Hne. destruct segs as [|x more] using rev_ind; [done|]. clear IHmore.
  destruct more as [|y more'].
  - exists [Path.dot], x. split; [done|by left].
  - exists (Path.dot :: Path.slash :: JS.join [Path.slash] (y :: more')), x.
    rewrite join_snoc by done. split; [done|]. set_solver.
Qed.

Lemma replaceStr_nil (by_ l : list ascii) : JS.replaceStr [] by_ l = by_ ++ l.
Proof. by destruct l. Qed.

(** Where an include path of plain names leads from a root whose resolved
    form is known. *)
Lemma resolve_under (root : string) (R Q : list (list ascii)) :
  Path.resolve "/" root = JS.str (Path.slash :: JS.join [Path.slash] R) →
  Forall cleanSegment R → Q ≠ [] → Forall plainSegment Q →
  resolve (dotted (pathOf Q)) root = pathOf (R ++ Q).
Proof.
  intros Hroot HR Hne HQ. unfold resolve. rewrite Hroot.
  destruct Q as [|x more]; [done|].
  pose proof (Forall_inv HQ) as Hx.
  pose proof (dotted_plain x more Hx) as Hd.
  assert (Path.extname (dotted (pathOf (x :: more))) = "") as ->.
  { rewrite <- (str_chars (dotted _)), Hd.
    destruct (join_split_last (x :: more)) as (pre & last_ & -> & Hl); [done|].
    assert (plainSegment last_) as (? & ? & ?).
    { by eapply (proj1 (Forall_forall _ _)). }
    by apply extname_plain. }
  change (JS.chars "") with (@nil ascii). rewrite replaceStr_nil. simpl app.
  rewrite str_chars. unfold Path.resolve.
  assert (Path.isAbsolute (dotted (pathOf (x :: more))) = false) as ->.
  { unfold Path.isAbsolute. by rewrite Hd. }
  rewrite Hd, !chars_str.
  change ((Path.slash :: JS.join [Path.slash] R) ++ [Path.slash] ++
          Path.dot :: Path.slash :: JS.join [Path.slash] (x :: more))
    with ([] ++ Path.slash :: (JS.join [Path.slash] R ++
          Path.slash :: ([Path.dot] ++ Path.slash :: JS.join [Path.slash] (x :: more)))).
  rewrite split_line_sep by set_solver.
  assert (Hsl : Forall (λ seg, Path.slash ∉ seg) (x :: more)).
  { eapply Forall_impl; [exact HQ|]. by intros seg (_ & ? & _). }
  assert (Hcl : Forall cleanSegment (x :: more)).
  { eapply Forall_impl; [exact HQ|]. apply plainSegment_clean. }
  assert (Htail : JS.split Path.slash
                    ([Path.dot] ++ Path.slash :: JS.join [Path.slash] (x :: more))
                  = [Path.dot] :: x :: more).
  { rewrite split_line_sep; [by rewrite split_join|].
    intros H%list_elem_of_singleton. discriminate H. }
  unfold pathOf. f_equal.
  destruct R as [|r R'].
  - change (JS.join [Path.slash] [] ++ ?l) with l.
    change (JS.split Path.slash (Path.slash :: ?l))
      with (JS.split Path.slash ([] ++ Path.slash :: l)).
    rewrite split_line_sep by set_solver. rewrite Htail.
    change (Path.normalize ([] :: [] :: [Path.dot] :: x :: more) [])
      with (Path.normalize (x :: more) []).
    by rewrite normalize_plain.
  - rewrite split_join_app; [|done|].
    + rewrite Htail.
      change (Path.normalize ([] :: (r :: R') ++ [Path.dot] :: x :: more) [])
        with (Path.normalize ((r :: R') ++ [Path.dot] :: x :: more) []).
      rewrite normalize_app by done.
      change (Path.normalize ([Path.dot] :: x :: more) ?acc)
        with (Path.normalize (x :: more) acc).
      rewrite normalize_plain by done.
      by rewrite app_nil_r, rev_involutive.
    + eapply Forall_impl; [exact HR|]. by intros seg (_ & _ & _ & ?).
Qed.

Lemma dirname_join (R : list (list ascii)) (f : list ascii) :
  R ≠ [] → Forall cleanSegment R → cleanSegment f →
  Path.dirname (pathOf (R ++ [f])) = pathOf R.
Proof.
  intros Hne HR (Hf & _ & _ & Hfs). unfold Path.dirname, pathOf.
  rewrite chars_str, join_snoc by done.
  destruct R as [|r R']; [done|].
  apply Forall_cons in HR as [(Hr & _ & _ & Hrs) _].
  destruct (join_head r R') as [tail Hj]. rewrite Hj.
  destruct r as [|c0 r']; [done|]. simpl app. cbv iota.
  rewrite rev_app_distr. simpl rev. rewrite <- app_assoc. simpl app.
  rewrite dropSlashes_head by (by apply rev_head_not_slash).
  rewrite dropToSlash_app by (by rewrite elem_of_rev).
  assert (Path.isSlash c0 = false) as ->
    by (apply Ascii.eqb_neq; intros ->; apply Hrs; by left).
  simpl. by rewrite rev_involutive.
Qed.

Lemma dirname_bare (f : list ascii) :
  cleanSegment f → Path.dirname (JS.str f) = ".".
Proof.
  intros (Hf & _ & _ & Hfs). unfold Path.dirname. rewrite chars_str.
  destruct f as [|c0 tl]; [done|].
  assert (Path.slash ∉ rev tl) as Hrev.
  { rewrite elem_of_rev. intros H. apply Hfs. by right. }
  rewrite dropSlashes_head.
  - rewrite dropToSlash_none by done.
    by assert (Path.isSlash c0 = false) as ->
      by (apply Ascii.eqb_neq; intros ->; apply Hfs; by left).
  - destruct (rev tl) as [|c r]; [done|]. intros ->. apply Hrev. by left.
Qed.

(** An include of plain names from a file in a directory: the quoted form
    leads into the directory, the form in angle brackets to the root. *)
Lemma resolve_from_file (R Q : list (list ascii)) (f : list ascii) :
  Forall cleanSegment R → cleanSegment f → Q ≠ [] → Forall plainSegment Q →
  resolve (dotted (pathOf Q)) (Path.dirname (pathOf (R ++ [f]))) = pathOf (R ++ Q) ∧
  resolve (dotted (pathOf Q)) "/" = pathOf Q.
Proof.
  intros HR Hf Hne HQ. split.
  - destruct R as [|r R'].
    + change (pathOf ([] ++ [f])) with (JS.str f). rewrite dirname_bare by done.
      by apply (resolve_under "." []).
    + rewrite dirname_join by done.
      apply resolve_under; try done. by apply resolve_root_join.
  - by apply (resolve_under "/" []).
Qed.

(** ** Where an include leads *)

Lemma processWith_root {E : Externals} (v : string → string → M Walk unit)
      (name source : string) (l : ShaderLib) :
  name ≠ kAnonymousShaderName →
  ∃ finish : Walk → string,
    processWith v name source l
    = match v (NL +:+ injectDefines source (defines l) +:+ NL)
              (Path.dirname name) (mkWalk l [] []) with
      | Ret _ w' => Ret (finish w') (lib w')
      | Throw e w' => Throw e (lib w')
      | OutOfFuel => OutOfFuel
      end.
Proof.
  intros Hn. unfold processWith. rewrite bool_decide_true by done.
  by eexists (λ w', _).
Qed.

(** C5, as the code has it. An [#include] token made of the directive,
    white space and a delimited path on one line is walked under [root].
    In double quotes the path is resolved against [root], in angle brackets
    against the root of the store whatever [root] is, and a path that does
    not start with a dot is resolved like the same path behind [./]; the
    fragment found there is walked under the same root as its path was
    resolved against. The root of the walk of a named text is the
    directory of its name, and [get] compiles a fragment under its path,
    so that the rule holds inside a fragment reached through an include as
    well, whenever its text is walked, which is when the cache does not
    hold it. For plain names: from the file [f] in the directory [R] the
    quoted include of [Q] leads to [R/Q] and the one in angle brackets to
    [Q]. *)
Theorem include_roots {E : Externals}
        (getRec : string → M ShaderLib (option string))
        (visitRec : string → string → M Walk unit)
        (ws p : list ascii) (line : nat) (root : string) (w : Walk) :
  blanks ws → oneLine p →
  let path := JS.str (JS.trim p) in
  let token arg := mkToken kGLSLTokenPreprocecsor (includeData ws arg) line in
  let nested text under l' :=
    match visitRec (text +:+ NL) under
            (mkWalk l' (stack w)
               (includeStack w ++ [path +:+ ":" +:+ JS.ofInt (Z.of_nat line)])) with
    | Ret _ w2 => Ret tt (mkWalk (lib w2) (stack w2) (removelast (includeStack w2)))
    | Throw e w2 => Throw e w2
    | OutOfFuel => OutOfFuel
    end in
  (∀ text l',
     getRec (resolve (dotted path) root) (lib w) = Ret (Some text) l' →
     JS.truthy text = true →
     visitToken getRec visitRec (token (dquote :: p ++ [dquote])) root w
     = nested text root l') ∧
  (∀ text l',
     getRec (resolve (dotted path) "/") (lib w) = Ret (Some text) l' →
     JS.truthy text = true →
     visitToken getRec visitRec (token ("<"%char :: p ++ [">"%char])) root w
     = nested text "/" l') ∧
  (∀ fuel name source l,
     name ≠ kAnonymousShaderName →
     ∃ finish : Walk → string,
       process fuel name source l
       = match runVisit (engine fuel)
                 (NL +:+ injectDefines source (defines l) +:+ NL)
                 (Path.dirname name) (mkWalk l [] []) with
         | Ret _ w' => Ret (finish w') (lib w')
         | Throw e w' => Throw e (lib w')
         | OutOfFuel => OutOfFuel
         end) ∧
  (∀ fuel name source l,
     JS.truthy name = true → JS.truthy source = true →
     truthyO (cache l !! hashString source) = false →
     compile (S fuel) (Some name) (Some source) l
     = match process (S fuel) name (injectShaderNameDefine name source) l with
       | Ret text l' =>
           let body := assemble (injectShaderPrecision l' text) in
           Ret (Some (body +:+ NL)) (setCache (hashString source) body l')
       | Throw e l' => Throw e l'
       | OutOfFuel => OutOfFuel
       end) ∧
  (∀ fuel path source l,
     store l !! path = Some source →
     get fuel path l = compile fuel (Some path) (Some source) l) ∧
  (∀ (R Q : list (list ascii)) (f : list ascii),
     Forall cleanSegment R → cleanSegment f → Q ≠ [] → Forall plainSegment Q →
     resolve (dotted (pathOf Q)) (Path.dirname (pathOf (R ++ [f]))) = pathOf (R ++ Q) ∧
     resolve (dotted (pathOf Q)) "/" = pathOf Q) ∧
  resolve (dotted "./foo") (Path.dirname "mat/flat") = "mat/foo" ∧
  resolve (dotted "foo") (Path.dirname "mat/flat") = "mat/foo" ∧
  resolve (dotted "light/ambient") "/" = "light/ambient" ∧
  (∃ l', compile (E:=Ref.externals) 3 (Some "scene/deep/main")
           (Some ("#include <mat/flat>" +:+ NL +:+ "#include <light/ambient>"))
           nestedLib
         = Ret (Some ("precision mediump float;" +:+ NL +:+ "mat_foo" +:+ NL +:+
                      "ambient_body" +:+ NL)) l').
Proof.
  intros Hws Hp path token nested.
  split; [|split; [|split; [|split; [|split; [|split]]]]].
  - intros text l' Hg Ht.
    rewrite (visitToken_include_found getRec visitRec
               (token (dquote :: p ++ [dquote])) root w _ text l'
               eq_refl (include_directive _ _ Hws)
               (parseInclude_quoted ws p root w Hws Hp) Hg Ht).
    done.
  - intros text l' Hg Ht.
    rewrite (visitToken_include_found getRec visitRec
               (token ("<"%char :: p ++ [">"%char])) root w _ text l'
               eq_refl (include_directive _ _ Hws)
               (parseInclude_angle ws p root w Hws Hp) Hg Ht).
    done.
  - intros fuel name source l Hn. by apply processWith_root.
  - intros fuel name source l Hn Hs Hc.
    rewrite compile_S, compileWith_miss by done.
    unfold workingName. simpl. by rewrite Hn.
  - intros fuel path0 source l Hst. unfold get, getWith, bind, gets. by rewrite Hst.
  - intros R Q f HR Hf Hne HQ. by apply resolve_from_file.
  - repeat split; try by vm_compute. eexists. by vm_compute.
Qed.

Lemma include_roots_witness :
  let w := mkWalk nestedLib [] [] in
  let compiled := "precision mediump float;" +:+ NL +:+ "mat_foo" in
  let l' := setCache (hashString "mat_foo") compiled nestedLib in
  visitToken (get (E:=Ref.externals) 1) (runVisit (engine (E:=Ref.externals) 1))
    (mkToken kGLSLTokenPreprocecsor
       (includeData [" "%char] (dquote :: JS.chars "./foo" ++ [dquote])) 2)
    (Path.dirname "mat/flat") w
  = match runVisit (engine (E:=Ref.externals) 1) ((compiled +:+ NL) +:+ NL) "mat"
            (mkWalk l' [] ["./foo:2"]) with
    | Ret _ w2 => Ret tt (mkWalk (lib w2) (stack w2) (removelast (includeStack w2)))
    | Throw e w2 => Throw e w2
    | OutOfFuel => OutOfFuel
    end.
Proof.
  intros w compiled l'.
  assert (Hws : blanks [" "%char]) by (split; [done|by repeat constructor]).
  assert (Hp : oneLine (JS.chars "./foo")) by (by repeat constructor).
  destruct (include_roots (E:=Ref.externals)
              (get (E:=Ref.externals) 1) (runVisit (engine (E:=Ref.externals) 1))
              [" "%char] (JS.chars "./foo") 2 (Path.dirname "mat/flat") w Hws Hp)
    as [H _].
  apply (H (compiled +:+ NL) l'); by vm_compute.
Defined.

(** C5 as stated fails for a file whose text the cache holds already: of
    two files with the same text in two directories, the one that is asked
    for second is not walked and is served what the quoted include of the
    first led to. *)
Lemma include_served_from_cache :
  store twinLib !! "a/flat" = store twinLib !! "b/flat" ∧
  (∃ l2, get (E:=Ref.externals) 2 "b/flat" twinLib
         = Ret (Some ("precision mediump float;" +:+ NL +:+ "from_b" +:+ NL)) l2) ∧
  match get (E:=Ref.externals) 2 "a/flat" twinLib with
  | Ret first l1 =>
      first = Some ("precision mediump float;" +:+ NL +:+ "from_a" +:+ NL) ∧
      get (E:=Ref.externals) 2 "b/flat" l1
      = Ret (Some ("precision mediump float;" +:+ NL +:+ "from_a")) l1
  | _ => False
  end.
Proof.
  split; [by vm_compute|]. split; [eexists; by vm_compute|].
  vm_compute. by split.
Qed.

(** C6. The end-to-end scenario: with fragment [a] defining [FOO] without a
    value and fragment [b] including [a], compiling a root that includes
    [b] gives the precision line once, then [#define FOO 1], [body_a] and
    [body_b], each on a line of its own and with no empty line between
    them. *)
Theorem end_to_end_scenario :
  let text := "precision mediump float;" +:+ NL +:+ "#define FOO 1" +:+ NL +:+
              "body_a" +:+ NL +:+ "body_b" +:+ NL in
  (∃ l', compile (E:=Ref.externals) 3 (Some "root") (Some "#include <b>") scenarioLib
         = Ret (Some text) l') ∧
  map JS.str (JS.split nl (JS.chars text))
  = ["precision mediump float;"; "#define FOO 1"; "body_a"; "body_b"; ""].
Proof. split; [eexists|]; by vm_compute. Qed.

(** ** The [Shader] component *)

Lemma shaderLib_eta (l l' : ShaderLib) :
  sameButDefines l l' → defines l' = defines l → l' = l.
Proof.
  destruct l, l'. unfold sameButDefines. simpl.
  intros (?&?&?&?&?) ?. by subst.
Qed.


Section ShaderFacts.
Context {E : Externals} {Env : Type}.
Implicit Types (s : Shader) (frame : @FrameState Env) (src : @shaderSource Env).

(** The define step of [update]: what it returns and what it leaves. *)
Lemma update_define (merged : gmap string jsval) s :
  ∃ l', (if bool_decide (merged ≠ ∅)
         then onShaderLib (define (KObject (map_to_list merged)) VUndefined)
         else ret false) s
        = Ret (existsb (changesTable (defines (shaderLib s))) (map_to_list merged))
              (withLib l' s) ∧
        sameButDefines (shaderLib s) l' ∧
        defines l' = tableAfter (map_to_list merged) (defines (shaderLib s)).
Proof.
  case_bool_decide as Hm.
  - destruct (defineEntries_spec (map_to_list merged) (shaderLib s))
      as (l' & H & Hs & Hd); [apply NoDup_fst_map_to_list|].
    exists l'. split; [|done].
    unfold onShaderLib, zoom, define. unfold bind. rewrite H. unfold ret.
    by rewrite existsb_id_map.
  - assert (merged = ∅) as -> by (by destruct (decide (merged = ∅))).
    exists (shaderLib s). rewrite map_to_list_empty. simpl.
    split; [by destruct s|]. split; [apply sameButDefines_refl|done].
Qed.

Lemma getViableShader_text frame src s t :
  sourceText frame src = Some t → getViableShader frame src s = Ret (Some t) s.
Proof.
  destruct src as [|text|f]; simpl; [done|by intros [= ->]|].
  by destruct (f (env frame)); intros [= ->].
Qed.

Lemma getViableShader_error frame src s e :
  sourceError frame src = Some e → getViableShader frame src s = Throw e s.
Proof.
  destruct src as [|text|f]; simpl; [done..|].
  by destruct (f (env frame)); intros [= ->].
Qed.











(** The define step of [update], with the instance it leaves. *)
Lemma update_define_exact (merged : gmap string jsval) s :
  (if bool_decide (merged ≠ ∅)
   then onShaderLib (define (KObject (map_to_list merged)) VUndefined)
   else ret false) (withDefines merged s)
  = Ret (existsb (changesTable (defines (shaderLib s))) (map_to_list merged))
        (afterDefines merged s).
Proof.
  destruct (update_define merged (withDefines merged s)) as (l' & Hd & Hs & Hdef).
  rewrite Hd. unfold afterDefines. f_equal. f_equal.
  change (shaderLib (withDefines merged s)) with (shaderLib s) in *.
  destruct l', (shaderLib s). unfold sameButDefines, libWithTable in *.
  simpl in *. destruct Hs as (?&?&?&?&?). by subst.
Qed.


Lemma checkShader_pure frame current src (needsCompile : bool) s :
  sourceError frame src = None →
  ∃ b, checkShader frame current src needsCompile s = Ret b s.
Proof.
  intros He. unfold checkShader.
  assert (∃ o, getViableShader frame src s = Ret o s) as [o Ho].
  { destruct src as [|text|f]; simpl in *; eauto.
    destruct (f (env frame)); [eauto|done]. }
  rewrite (bind_Ret _ _ _ _ _ Ho). unfold bind, gets, ret.
  destruct (truthyO _); [eauto|].
  destruct current, o; try case_bool_decide; eauto.
Qed.

Lemma checkShader_error frame current src (needsCompile : bool) s e :
  sourceError frame src = Some e →
  checkShader frame current src needsCompile s = Throw e s.
Proof.
  intros He. unfold checkShader.
  by rewrite (bind_Throw _ _ _ _ _ (getViableShader_error _ _ _ _ He)).
Qed.

Lemma compileShader_error fuel frame type_ src s e :
  sourceError frame src = Some e →
  compileShader fuel frame type_ src s = Throw e s.
Proof.
  intros He. unfold compileShader.
  assert (isViableShader src = true) as -> by (by destruct src).
  by rewrite (bind_Throw _ _ _ _ _ (getViableShader_error _ _ _ _ He)).
Qed.

(** A source that gives a text compiles to what [shaderLib.compile] returns
    for it, run through [preprocess]. *)
Lemma compileShader_ret fuel frame (type_ : string) src s t c l2 :
  sourceText frame src = Some t →
  compile fuel (Some (shaderName s +:+ " (" +:+ type_ +:+ ")")) (Some t) (shaderLib s)
  = Ret (Some c) l2 →
  compileShader fuel frame type_ src s
  = Ret (Some (preprocess c l2, t)) (withLib l2 s).
Proof.
  intros Ht Hc. unfold compileShader.
  assert (isViableShader src = true) as -> by (by destruct src).
  rewrite (bind_Ret _ _ _ _ _ (getViableShader_text _ _ _ _ Ht)).
  unfold bind at 1. unfold gets at 1.
  unfold bind at 1. unfold onShaderLib at 1, zoom. rewrite Hc.
  unfold bind, onShaderLib, zoom, gets, ret. simpl. by destruct s.
Qed.

(** C9, as the code has it. An exception of a source function leaves
    [update] as it was thrown. When it is the vertex source that throws,
    when the frame neither forces a compile nor changes a define, or when
    the frame has no vertex source, the instance keeps its programs, its
    recorded sources, its memo, its regl commands and the cache of its
    library. When the fragment source throws in a frame that forces a
    compile or changes a define and has a vertex source, the vertex slot
    has been compiled by then: the instance is left with the vertex
    program, the recorded vertex source, the memo entry and the library
    that the compile of the vertex text made. *)
Theorem generator_error_propagates (fuel : nat)
        (contextDefines : gmap string jsval) frame s (e : jsError) :
  firstError frame = Some e →
  let merged := mergedDefines contextDefines frame s in
  let forced :=
    forceCompile frame ||
    existsb (changesTable (defines (shaderLib s))) (map_to_list merged) in
  let s1 := afterDefines merged s in
  (sourceError frame (stateVertexShader frame) = Some e ∨ forced = false ∨
   stateVertexShader frame = SrcAbsent →
   ∃ s', update fuel contextDefines frame s = Throw e s' ∧ samePrograms s s') ∧
  (sourceError frame (stateVertexShader frame) = None → forced = true →
   ∀ t c l2,
     sourceText frame (stateVertexShader frame) = Some t →
     compile fuel (Some (shaderName s +:+ " (vertex)")) (Some t) (shaderLib s1)
     = Ret (Some c) l2 →
     update fuel contextDefines frame s
     = Throw e (withVertex (preprocess c l2) t (withLib l2 (countCompile s1)))).
Proof.
  intros He merged forced s1.
  assert (Hstart : update fuel contextDefines frame s
                   = ((let* go := if forced then ret true else shouldCompile frame in
                       (if go then compileProgram fuel frame else ret tt) ;;
                       gets injectContext) s1)%js).
  { unfold update.
    unfold bind at 1, gets at 1. fold (mergedDefines contextDefines frame s).
    fold merged. unfold bind at 1, modify at 1.
    by rewrite (bind_Ret _ _ _ _ _ (update_define_exact merged s)). }
  rewrite Hstart. clear Hstart.
  assert (Hsame : samePrograms s s1) by (by repeat split).
  unfold firstError in He.
  split.
  - intros Hcase. unfold bind at 1.
    destruct (sourceError frame (stateVertexShader frame)) as [ev|] eqn:Hv.
    + (* the vertex source throws *)
      injection He as ->. destruct forced.
      * exists (countCompile s1). split; [|done].
        unfold ret at 1.
        unfold compileProgram, compileVertexShader, bind, ret, modify. cbv beta iota.
        by rewrite (compileShader_error _ _ _ _ _ _ Hv).
      * exists s1. split; [|done].
        unfold shouldCompile, bind, gets. cbv beta iota.
        by rewrite (checkShader_error _ _ _ _ _ _ Hv).
    + (* the fragment source throws *)
      destruct Hcase as [Hcase|[Hforced|Habsent]]; [done| |].
      * clearbody forced. subst forced. exists s1. split; [|done].
        unfold shouldCompile, bind, gets. cbv beta iota.
        destruct (checkShader_pure frame (vertexShaderUncompiled s1)
                    (stateVertexShader frame)
                    (match injectContext s1 with Some _ => false | None => true end)
                    s1 Hv) as [b ->].
        by rewrite (checkShader_error _ _ _ _ _ _ He).
      * destruct forced.
        -- exists (countCompile s1). split; [|done].
           unfold ret at 1.
           unfold compileProgram, compileVertexShader, compileFragmentShader.
           rewrite Habsent.
           unfold bind, ret, modify. cbv beta iota. simpl.
           by rewrite (compileShader_error _ _ _ _ _ _ He).
        -- exists s1. split; [|done].
           unfold shouldCompile, bind, gets. cbv beta iota.
           destruct (checkShader_pure frame (vertexShaderUncompiled s1)
                       (stateVertexShader frame)
                       (match injectContext s1 with Some _ => false | None => true end)
                       s1 Hv) as [b ->].
           by rewrite (checkShader_error _ _ _ _ _ _ He).
  - intros Hv Hforced t c l2 Ht Hc. rewrite Hv in He.
    clearbody forced. subst forced. unfold bind at 1.
    unfold ret at 1.
    unfold compileProgram, compileVertexShader, compileFragmentShader.
    unfold bind at 1. unfold modify at 1.
    unfold bind at 1.
    set (s2 := withVertex (preprocess c l2) t (withLib l2 (countCompile s1))).
    assert (HV : compileVertexShader fuel frame (countCompile s1) = Ret tt s2).
    { unfold compileVertexShader, bind.
      by rewrite (compileShader_ret fuel frame "vertex" _ (countCompile s1) t c l2 Ht Hc). }
    assert (HF : compileFragmentShader fuel frame s2 = Throw e s2).
    { unfold compileFragmentShader, bind.
      by rewrite (compileShader_error _ _ _ _ _ _ He). }
    unfold compileVertexShader in HV. unfold compileFragmentShader in HF.
    rewrite (bind_Ret _ _ _ _ _ HV).
    by rewrite (bind_Throw _ _ _ _ _ HF).
Qed.

End ShaderFacts.


Lemma generator_error_propagates_witness :
  ∃ s', update (E:=Ref.externals) 1 ∅
          (mkFrameState false ∅ (SrcFunction (fun _ => inr (Thrown "no vertex")))
             (SrcString plainSource) tt) plainShader
        = Throw (Thrown "no vertex") s' ∧
        samePrograms plainShader s'.
Proof.
  pose proof (generator_error_propagates (E:=Ref.externals) 1 ∅
                (mkFrameState false ∅ (SrcFunction (fun _ => inr (Thrown "no vertex")))
                   (SrcString plainSource) tt) plainShader (Thrown "no vertex")
                eq_refl) as H.
  cbv zeta in H. destruct H as [H _]. apply H. by left.
Defined.

(** C9 as stated fails when a compile is forced and the fragment source
    throws: the vertex slot has been compiled by then, and the exception
    leaves the instance with a new recorded vertex source and new entries
    in its memo and in the cache of the library. *)
Lemma generator_error_after_vertex :
  ∃ s', update (E:=Ref.externals) 1 ∅ throwingFrame plainShader
        = Throw (Thrown "no fragment") s' ∧
        vertexShaderUncompiled plainShader = Some plainSource ∧
        vertexShaderUncompiled s' = Some otherSource ∧
        shaderCache plainShader !! hashString otherSource = None ∧
        is_Some (shaderCache s' !! hashString otherSource) ∧
        cache (shaderLib plainShader) !! hashString otherSource = None ∧
        is_Some (cache (shaderLib s') !! hashString otherSource).
Proof.
  eexists. split; [by vm_compute|]. vm_compute. repeat split; eauto.
Qed.

(** * Further properties of the code *)

(** ** The define table *)

(** X1. Defining a name twice with one value: the second call finds nothing
    to change. *)
Theorem define_twice (key : string) (value : jsval) (l : ShaderLib) :
  ∃ b l1, define (KString key) value l = Ret b l1 ∧
          define (KString key) value l1 = Ret false l1.
Proof.
  simpl. rewrite defineString_spec.
  destruct (coerce value) as [v|] eqn:Hv.
  - case_decide as Hd.
    + exists false, l. split; [done|].
      rewrite defineString_spec, Hv. by rewrite decide_True.
    + exists true, (setDefine key v l). split; [done|].
      rewrite defineString_spec, Hv.
      rewrite decide_True; [done|]. simpl. apply lookup_insert_eq.
  - exists false, l. split; [done|]. by rewrite defineString_spec, Hv.
Qed.

(** X2. [undefine] forgets the name: a define of any value that is neither
    [null] nor [undefined] counts as a change afterwards, also with the
    value the name had. *)
Theorem undefine_then_define (key v : string) (value : jsval) (l : ShaderLib) :
  coerce value = Some v →
  ∃ l', bind (undefine key) (fun _ => define (KString key) value) l = Ret true l' ∧
        defines l' = <[key := v]> (defines l) ∧ sameButDefines l l'.
Proof.
  intros Hv. unfold bind, undefine, modify. simpl.
  rewrite defineString_spec, Hv. simpl.
  rewrite decide_False by (by rewrite lookup_delete_eq).
  eexists. split; [done|]. split; [|by repeat split].
  simpl. by rewrite insert_delete_eq.
Qed.

Lemma undefine_then_define_witness :
  ∃ l', bind (undefine "X") (fun _ => define (KString "X") (VBool true))
          (setDefine "X" "1" emptyLib) = Ret true l' ∧
        defines l' = <["X" := "1"]> (defines (setDefine "X" "1" emptyLib)) ∧
        sameButDefines (setDefine "X" "1" emptyLib) l'.
Proof.
  apply (undefine_then_define "X" "1" (VBool true) (setDefine "X" "1" emptyLib)).
  reflexivity.
Defined.

(** ** The store *)



Section StoreFacts.
Context {E : Externals}.

(** X4. [get] of a path the store does not hold is [null]; no budget is
    needed and the library is not touched. *)
Theorem get_missing (fuel : nat) (path : string) (l : ShaderLib) :
  store l !! path = None → get fuel path l = Ret None l.
Proof. intros H. unfold get, getWith, bind, gets, ret. by rewrite H. Qed.

(** X5. [compile] returns [null] exactly when it is given neither a source
    nor a name to take for one; the library is not touched then. *)
Theorem compile_null_iff (fuel : nat) (name source : option string) (l l' : ShaderLib) :
  compile (S fuel) name source l = Ret None l' ↔
  truthyO source = false ∧ truthyO name = false ∧ l' = l.
Proof.
  rewrite compile_S. split.
  - intros H. destruct source as [src|].
    + destruct (JS.truthy src) eqn:Hs.
      * by apply compileWith_not_null in H.
      * destruct name as [n|].
        -- destruct (JS.truthy n) eqn:Hn.
           ++ assert (compileWith (runVisit (engine (S fuel))) (Some n) (Some src) l
                      = compileWith (runVisit (engine (S fuel))) None (Some n) l) as Heq.
              { unfold compileWith. simpl. by rewrite Hs, Hn. }
              rewrite Heq in H. by apply compileWith_not_null in H.
           ++ unfold compileWith in H. simpl in H. rewrite Hs, Hn in H.
              simpl in H. rewrite Hs in H. simpl in H. by injection H as <-.
        -- unfold compileWith in H. simpl in H. rewrite Hs in H.
           simpl in H. rewrite Hs in H. simpl in H. by injection H as <-.
    + destruct name as [n|].
      * destruct (JS.truthy n) eqn:Hn.
        -- assert (compileWith (runVisit (engine (S fuel))) (Some n) None l
                   = compileWith (runVisit (engine (S fuel))) None (Some n) l) as Heq.
           { unfold compileWith. simpl. by rewrite Hn. }
           rewrite Heq in H. by apply compileWith_not_null in H.
        -- unfold compileWith in H. simpl in H. rewrite Hn in H.
           simpl in H. by injection H as <-.
      * unfold compileWith in H. simpl in H. by injection H as <-.
  - intros (Hs & Hn & ->). unfold compileWith.
    destruct source as [src|], name as [n|]; simpl in *;
      rewrite ?Hs, ?Hn; simpl; rewrite ?Hs; done.
Qed.

Lemma compile_leaves_entry (fuel : nat) (name : option string)
      (source text : string) (l l' : ShaderLib) :
  JS.truthy source = true →
  compile fuel name (Some source) l = Ret (Some text) l' →
  ∃ body, cache l' !! hashString source = Some body ∧ JS.truthy body = true.
Proof.
  intros Hs H. destruct fuel as [|fuel]; [done|]. rewrite compile_S in H.
  destruct (truthyO (cache l !! hashString source)) eqn:Hc.
  - destruct (cache l !! hashString source) as [c|] eqn:Hl; [|done].
    rewrite (compileWith_hit _ name source l c) in H by done.
    injection H as <- <-. by exists c.
  - rewrite compileWith_miss in H by done.
    destruct (processWith _ _ _ _) as [t l1| |]; [|done..].
    simpl in H. injection H as <- <-.
    eexists. split; [apply lookup_insert_eq|apply assemble_truthy].
Qed.

(** X6. What [compile] has returned a text for, [isCached] knows. *)
Theorem compiled_is_cached (fuel : nat) (name : option string)
        (source text : string) (l l' : ShaderLib) :
  JS.truthy source = true →
  compile fuel name (Some source) l = Ret (Some text) l' →
  isCached (Some source) l' = true.
Proof.
  intros Hs H.
  destruct (compile_leaves_entry fuel name source text l l' Hs H) as (body & Hb & _).
  unfold isCached. simpl. by rewrite Hb.
Qed.

(** X7. The cache does not see the define table: after a source is compiled
    and a define is changed, compiling the source again returns the text
    compiled under the old table. *)
Theorem compile_ignores_later_defines (fuel : nat) (name : option string)
        (source text key : string) (value : jsval) (l l' : ShaderLib) :
  JS.truthy source = true →
  compile fuel name (Some source) l = Ret (Some text) l' →
  ∃ b l'' body,
    define (KString key) value l' = Ret b l'' ∧
    cache l' !! hashString source = Some body ∧
    compile fuel name (Some source) l'' = Ret (Some body) l''.
Proof.
  intros Hs H.
  destruct (compile_leaves_entry fuel name source text l l' Hs H) as (body & Hb & Ht).
  destruct (defineString_table key value l') as (l'' & Hd & Hsame & _).
  exists (changesTable (defines l') (key, value)), l'', body.
  split; [done|]. split; [done|].
  destruct fuel as [|fuel]; [done|]. rewrite compile_S.
  apply compileWith_hit; [done| |done].
  destruct Hsame as [Hcache _]. by rewrite Hcache.
Qed.

End StoreFacts.

Lemma get_missing_witness :
  get (E:=Ref.externals) 0 "nowhere" scenarioLib = Ret None scenarioLib.
Proof. apply (get_missing (E:=Ref.externals) 0 "nowhere" scenarioLib). reflexivity. Defined.

Lemma compiled_is_cached_witness :
  isCached (Some plainSource)
    (setCache (hashString plainSource) plainBody emptyLib) = true.
Proof.
  apply (compiled_is_cached (E:=Ref.externals) 1 (Some "triangle") plainSource
           (plainBody +:+ NL) emptyLib); by vm_compute.
Defined.

Lemma compile_ignores_later_defines_witness :
  ∃ b l'' body,
    define (KString "X") (VInt 2)
      (setCache (hashString plainSource) plainBody emptyLib) = Ret b l'' ∧
    cache (setCache (hashString plainSource) plainBody emptyLib)
      !! hashString plainSource = Some body ∧
    compile (E:=Ref.externals) 1 (Some "triangle") (Some plainSource) l''
    = Ret (Some body) l''.
Proof.
  apply (compile_ignores_later_defines (E:=Ref.externals) 1 (Some "triangle")
           plainSource (plainBody +:+ NL) "X" (VInt 2) emptyLib); by vm_compute.
Defined.

(** ** The recompilation decision *)

Lemma hashString_perm (a b : string) :
  JS.chars a ≡ₚ JS.chars b → hashString a = hashString b.
Proof.
  intros Hp. unfold hashString, charCodeSum. f_equal.
  apply fold_add_perm. by apply fmap_Permutation.
Qed.

Section DecisionFacts.
Context {E : Externals} {Env : Type}.
Implicit Types (s : Shader) (frame : @FrameState Env) (src : @shaderSource Env).

(** X8. The memo is asked before the texts are compared, and it is keyed by
    the hash: a source whose text is an anagram of a text in the memo does
    not ask for a compile, whatever was compiled last. *)
Theorem anagram_source_skips_compile frame (current : option string) src
        (t t0 m : string) (needsCompile : bool) s :
  sourceText frame src = Some t →
  JS.chars t ≡ₚ JS.chars t0 →
  shaderCache s !! hashString t0 = Some m → JS.truthy m = true →
  checkShader frame current src needsCompile s = Ret needsCompile s.
Proof.
  intros Ht Hp Hm Hmt. unfold checkShader.
  rewrite (bind_Ret _ _ _ _ _ (getViableShader_text _ _ _ _ Ht)).
  unfold bind, gets, ret. simpl.
  rewrite (hashString_perm t t0 Hp), Hm. simpl. by rewrite Hmt.
Qed.

(** X9. A source whose text is not in the memo and is not the text compiled
    last asks for a compile. *)
Theorem changed_source_asks_compile frame (current : option string) src
        (t : string) (needsCompile : bool) s :
  sourceText frame src = Some t →
  truthyO (shaderCache s !! hashString t) = false →
  current ≠ Some t →
  checkShader frame current src needsCompile s = Ret true s.
Proof.
  intros Ht Hm Hne. unfold checkShader.
  rewrite (bind_Ret _ _ _ _ _ (getViableShader_text _ _ _ _ Ht)).
  unfold bind, gets, ret. simpl. rewrite Hm.
  destruct current as [c|]; [|done].
  rewrite bool_decide_true; [done|]. congruence.
Qed.

Lemma checkShader_true frame (current : option string) src s :
  sourceError frame src = None →
  checkShader frame current src true s = Ret true s.
Proof.
  intros He. unfold checkShader.
  assert (∃ o, getViableShader frame src s = Ret o s) as [o Ho].
  { destruct src as [|text|f]; simpl in *; eauto.
    destruct (f (env frame)); [eauto|done]. }
  rewrite (bind_Ret _ _ _ _ _ Ho). unfold bind, gets, ret.
  destruct (truthyO _); [done|].
  destruct current, o; try case_bool_decide; done.
Qed.

(** X10. Without a regl command every frame asks for a compile, whatever the
    sources and the memo are. *)
Theorem no_command_asks_compile frame s :
  injectContext s = None →
  sourceError frame (stateVertexShader frame) = None →
  sourceError frame (stateFragmentShader frame) = None →
  shouldCompile frame s = Ret true s.
Proof.
  intros Hi Hv Hf. unfold shouldCompile, bind, gets. rewrite Hi.
  rewrite (checkShader_true _ _ _ _ Hv). by rewrite (checkShader_true _ _ _ _ Hf).
Qed.

(** X11. An instance that was never given a source runs the inner [compile] at
    every frame: a frame without sources compiles, makes no regl command,
    and leaves the instance in the state that made it compile. *)
Theorem no_sources_compile_every_frame (fuel : nat)
        (contextDefines : gmap string jsval) frame s :
  stateVertexShader frame = SrcAbsent →
  stateFragmentShader frame = SrcAbsent →
  injectContext s = None → vertexShader s = None → fragmentShader s = None →
  ∃ s', update fuel contextDefines frame s = Ret None s' ∧
        compileCount s' = S (compileCount s) ∧
        injectContext s' = None ∧ vertexShader s' = None ∧
        fragmentShader s' = None.
Proof.
  intros Hv Hf Hi Hvs Hfs. unfold update.
  unfold bind at 1, gets at 1.
  set (merged := assign _ _).
  unfold bind at 1, modify at 1.
  destruct (update_define merged (withDefines merged s)) as (l' & Hd & _ & _).
  rewrite (bind_Ret _ _ _ _ _ Hd).
  set (s1 := withLib l' (withDefines merged s)).
  assert (Hgo : ∀ b : bool,
            (if b then ret true else shouldCompile frame) s1 = Ret true s1).
  { intros [|]; [done|]. unfold shouldCompile, bind, gets.
    change (injectContext s1) with (injectContext s). rewrite Hi, Hv, Hf.
    rewrite (checkShader_true frame _ SrcAbsent s1 eq_refl).
    by rewrite (checkShader_true frame _ SrcAbsent s1 eq_refl). }
  rewrite (bind_Ret _ _ _ _ _ (Hgo _)).
  unfold compileProgram, compileVertexShader, compileFragmentShader, compileShader.
  rewrite Hv, Hf. unfold bind, ret, modify, gets. cbv beta iota. simpl isViableShader.
  cbv beta iota. unfold registerProgram. simpl. rewrite Hvs, Hfs. simpl.
  eexists. split; [by rewrite Hi|]. by repeat split.
Qed.

(** X12. The regl command of a pair of programs is made once: [compile] for a
    pair that has its command already keeps the command that is current,
    which need not be the one of the pair. Registering twice is
    registering once. *)
Theorem registerProgram_known_pair s (p : Program) :
  contextCache s !! pairHash s = Some p →
  injectContext (registerProgram s) = injectContext s ∧
  contextCache (registerProgram s) = contextCache s ∧
  registerProgram (registerProgram s) = registerProgram s.
Proof.
  intros Hp. unfold registerProgram, pairHash in *. simpl.
  destruct (vertexShader s) as [v|] eqn:Hv, (fragmentShader s) as [f|] eqn:Hf;
    simpl in *; rewrite ?Hp; simpl; rewrite ?Hv, ?Hf; simpl; rewrite ?Hp;
    by repeat split.
Qed.

End DecisionFacts.

Lemma anagram_source_skips_compile_witness :
  checkShader (mkFrameState false ∅ (SrcString "ovid main() {}") SrcAbsent tt)
    (Some plainSource) (SrcString "ovid main() {}") false plainShader
  = Ret false plainShader.
Proof.
  apply (anagram_source_skips_compile
           (mkFrameState false ∅ (SrcString "ovid main() {}") SrcAbsent tt)
           (Some plainSource) (SrcString "ovid main() {}")
           "ovid main() {}" plainSource
           ("precision mediump float;" +:+ NL +:+ "void main() {}")
           false plainShader).
  - reflexivity.
  - apply perm_swap.
  - by vm_compute.
  - reflexivity.
Defined.

Lemma changed_source_asks_compile_witness :
  checkShader (mkFrameState false ∅ (SrcString otherSource) SrcAbsent tt)
    (Some plainSource) (SrcString otherSource) false plainShader
  = Ret true plainShader.
Proof.
  apply (changed_source_asks_compile
           (mkFrameState false ∅ (SrcString otherSource) SrcAbsent tt)
           (Some plainSource) (SrcString otherSource) otherSource false plainShader);
    by vm_compute.
Defined.

Lemma no_command_asks_compile_witness :
  shouldCompile (plainFrame ∅) freshShader = Ret true freshShader.
Proof. apply (no_command_asks_compile (plainFrame ∅) freshShader); reflexivity. Defined.

Lemma no_sources_compile_every_frame_witness :
  ∃ s', update (E:=Ref.externals) 0 ∅ emptyFrame freshShader = Ret None s' ∧
        compileCount s' = S (compileCount freshShader) ∧
        injectContext s' = None ∧ vertexShader s' = None ∧
        fragmentShader s' = None.
Proof.
  apply (no_sources_compile_every_frame (E:=Ref.externals) 0 ∅ emptyFrame freshShader);
    reflexivity.
Defined.

Lemma registerProgram_known_pair_witness :
  injectContext (registerProgram plainShader) = injectContext plainShader ∧
  contextCache (registerProgram plainShader) = contextCache plainShader ∧
  registerProgram (registerProgram plainShader) = registerProgram plainShader.
Proof.
  apply (registerProgram_known_pair plainShader
           (mkProgram (vertexShader plainShader) None)).
  by vm_compute.
Defined.

(** ** The walk without includes *)

Section WalkFacts.
Context {E : Externals}.
Variable getRec : string → M ShaderLib (option string).
Variable visitRec : string → string → M Walk unit.

Lemma visitToken_standalone (t : Token) (root : string) (w : Walk) :
  standalone t = true →
  visitToken getRec visitRec t root w =
  Ret tt (mkWalk (lib w)
            (stack w ++ (if isComment t then [] else [kept t]))
            (includeStack w)).
Proof.
  unfold standalone, visitToken, isComment, kept, directiveOf.
  destruct (type t); intros H; try done;
    try (by unfold ret; destruct w; rewrite app_nil_r).
  destruct (Re.exec Pat.directive (JS.chars (data t))) as [res|]; [|done].
  simpl in *. apply negb_true_iff, bool_decide_eq_false in H.
  case_bool_decide as Hd.
  - rewrite bool_decide_true by congruence. done.
  - rewrite (bool_decide_false _ H).
    rewrite bool_decide_false by congruence. done.
Qed.

(** X13. Tokens without an [#include] are walked without a look at the store:
    the comments are dropped, every other token is kept in its place (a
    define without a value with the value 1), and the library and the
    include stack stay as they are. *)
Theorem visitTokens_without_includes (tokens : list Token) (root : string) (w : Walk) :
  forallb standalone tokens = true →
  visitTokens getRec visitRec tokens root w =
  Ret tt (mkWalk (lib w)
            (stack w ++ map kept (List.filter (fun t => negb (isComment t)) tokens))
            (includeStack w)).
Proof.
  revert w. induction tokens as [|t more IH]; intros w H.
  - simpl. unfold ret. destruct w. by rewrite app_nil_r.
  - simpl in H. apply andb_prop in H as [Ht Hmore].
    simpl visitTokens. unfold bind. rewrite (visitToken_standalone t root w Ht).
    rewrite (IH _ Hmore). simpl. f_equal. f_equal.
    destruct (isComment t); simpl; [by rewrite app_nil_r|].
    by rewrite <- app_assoc.
Qed.

End WalkFacts.

Lemma visitTokens_without_includes_witness :
  visitTokens (fun _ => ret None) (fun _ _ => ret tt)
    (Ref.tokenize ("// #include <x>" +:+ NL +:+ "#define FOO" +:+ NL +:+ "a /* b */ c") "100")
    "/" (mkWalk emptyLib [] [])
  = Ret tt (mkWalk emptyLib
              ([] ++ map kept (List.filter (fun t => negb (isComment t))
                 (Ref.tokenize ("// #include <x>" +:+ NL +:+ "#define FOO" +:+ NL +:+
                                "a /* b */ c") "100")))
              []).
Proof.
  apply (visitTokens_without_includes (fun _ => ret None) (fun _ _ => ret tt)
           (Ref.tokenize ("// #include <x>" +:+ NL +:+ "#define FOO" +:+ NL +:+ "a /* b */ c") "100")
           "/" (mkWalk emptyLib [] [])).
  by vm_compute.
Defined.

(** ** Lines *)

Lemma split_join_spaced (ls : list (list ascii)) :
  ls ≠ [] → Forall (fun line => nl ∉ line) ls →
  JS.split nl (JS.join [nl]
    (map (fun line => if (length line =? 1)%nat then line ++ [nl] else line) ls))
  = concat (map spaced ls).
Proof.
  induction ls as [|x more IH]; intros Hne Hall; [done|].
  apply Forall_cons in Hall as [Hx Hmore].
  destruct more as [|y more'].
  - simpl. unfold spaced. destruct (length x =? 1)%nat.
    + change (x ++ [nl]) with (x ++ nl :: []). by rewrite split_line_sep.
    + by rewrite split_line.
  - change (map ?f (x :: y :: more')) with (f x :: map f (y :: more')).
    set (f := fun line : list ascii => if (length line =? 1)%nat then line ++ [nl] else line) in *.
    change (JS.join [nl] (f x :: map f (y :: more')))
      with (f x ++ nl :: JS.join [nl] (map f (y :: more'))).
    change (concat (map spaced (x :: y :: more')))
      with (spaced x ++ concat (map spaced (y :: more'))).
    rewrite concat_cons, <- IH by done. unfold spaced. subst f. simpl.
    destruct (length x =? 1)%nat.
    + rewrite <- app_assoc. simpl. by rewrite split_line_sep by done.
    + by rewrite split_line_sep.
Qed.

Lemma filter_Forall_keep {A} (P : A → Prop) (f : A → bool) (l : list A) :
  Forall P l → Forall P (List.filter f l).
Proof.
  induction 1 as [|x l Hx Hl IH]; simpl; [done|].
  destruct (f x); [by constructor|done].
Qed.

(** X14. The text [compile] stores has the lines of its input that are not
    empty, in their order, and an empty line behind every line of one
    character. *)
Theorem assemble_lines (source : string) :
  let lines := List.filter (fun line => negb (length line =? 0)%nat)
                 (JS.split nl (JS.chars source)) in
  lines ≠ [] →
  JS.split nl (JS.chars (assemble source)) = concat (map spaced lines).
Proof.
  intros lines Hne. unfold assemble. rewrite chars_str.
  apply split_join_spaced; [done|].
  apply filter_Forall_keep, split_no_sep.
Qed.

Lemma assemble_lines_witness :
  JS.split nl (JS.chars (assemble ("void main() {" +:+ NL +:+ NL +:+ "}")))
  = concat (map spaced
      (List.filter (fun line => negb (length line =? 0)%nat)
         (JS.split nl (JS.chars ("void main() {" +:+ NL +:+ NL +:+ "}"))))).
Proof.
  apply (assemble_lines ("void main() {" +:+ NL +:+ NL +:+ "}")). by vm_compute.
Defined.

Section PreprocessFacts.
Context {E : Externals}.

(** X15. What [preprocess] returns has the lines of the expanded text that are
    not blank, and only those; when every line is blank it is the empty
    text. *)
Theorem preprocess_lines (source : string) (l : ShaderLib) :
  let lines := List.filter (fun line => negb (Re.test Pat.blank line))
                 (JS.split nl (JS.chars (prepr source (defines l)))) in
  JS.split nl (JS.chars (preprocess source l))
  = match lines with [] => [[]] | _ => lines end.
Proof.
  intros lines. unfold preprocess. rewrite chars_str. fold lines.
  destruct lines as [|x more] eqn:Hl; [done|].
  apply split_join; [done|]. rewrite <- Hl.
  apply filter_Forall_keep, split_no_sep.
Qed.

End PreprocessFacts.

(** ** Resolved paths *)

Lemma normalize_clean (parts acc : list (list ascii)) :
  Forall cleanSegment acc →
  Forall (fun seg => Path.slash ∉ seg) parts →
  Forall cleanSegment (Path.normalize parts acc).
Proof.
  revert acc. induction parts as [|p more IH]; intros acc Hacc Hparts; simpl.
  - by apply Forall_rev.
  - apply Forall_cons in Hparts as [Hp Hmore].
    destruct p as [|c p']; [by apply IH|].
    destruct (String.eqb_spec (JS.str (c :: p')) ".") as [|Hdot]; [by apply IH|].
    destruct (String.eqb_spec (JS.str (c :: p')) "..") as [|Hdots].
    + apply IH; [|done]. destruct acc; [done|]. by apply Forall_cons in Hacc as [_ ?].
    + apply IH; [|done]. constructor; [|done]. by repeat split.
Qed.

(** X16. A resolved path is made of clean segments: none is empty, none is [.]
    or [..], and they are joined by single slashes with none in front; an
    include cannot name anything above the root of the store. *)
Theorem resolve_clean (path root : string) :
  ∃ segs, resolve path root = JS.str (JS.join [Path.slash] segs) ∧
          Forall cleanSegment segs.
Proof.
  unfold resolve. generalize (Path.resolve "/" root). intros root'.
  unfold Path.resolve. eexists. split.
  - rewrite chars_str. reflexivity.
  - apply normalize_clean; [constructor|apply split_no_sep].
Qed.

(** ** What a compile leaves of the library *)

Lemma cacheGrows_refl l : cacheGrows l l.
Proof. by repeat split. Qed.

Lemma cacheGrows_trans l1 l2 l3 :
  cacheGrows l1 l2 → cacheGrows l2 l3 → cacheGrows l1 l3.
Proof.
  intros (?&?&?&?&?&?) (?&?&?&?&?&?). repeat split; try congruence. set_solver.
Qed.

Lemma cacheGrows_setCache k v l : cacheGrows l (setCache k v l).
Proof. repeat split. simpl. rewrite dom_insert. set_solver. Qed.

Lemma keepsWalk_ret {A} (a : A) : keepsWalk (ret a).
Proof. intros w. apply cacheGrows_refl. Qed.

Lemma keepsWalk_throw {A} e : keepsWalk (@throw Walk A e).
Proof. intros w. apply cacheGrows_refl. Qed.

Lemma keepsWalk_gets {A} (f : Walk → A) : keepsWalk (gets f).
Proof. intros w. apply cacheGrows_refl. Qed.

Lemma keepsWalk_modify (f : Walk → Walk) :
  (∀ w, lib (f w) = lib w) → keepsWalk (modify f).
Proof. intros H w. simpl. rewrite H. apply cacheGrows_refl. Qed.

Lemma keepsWalk_bind {A B} (c : M Walk A) (f : A → M Walk B) :
  keepsWalk c → (∀ a, keepsWalk (f a)) → keepsWalk (bind c f).
Proof.
  intros Hc Hf w. unfold bind. specialize (Hc w).
  destruct (c w) as [a w'| |]; [|done..].
  specialize (Hf a w'). destruct (f a w'); [| |done];
    by eapply cacheGrows_trans.
Qed.

Lemma keepsWalk_throwError {A} mk msg : keepsWalk (@throwError A mk msg).
Proof. intros w. apply cacheGrows_refl. Qed.

Lemma keepsWalk_onLib {A} (c : M ShaderLib A) : keepsLib c → keepsWalk (onLib c).
Proof.
  intros Hc w. unfold onLib, zoom. specialize (Hc (lib w)).
  by destruct (c (lib w)).
Qed.

Lemma keepsWalk_parseInclude data root : keepsWalk (parseInclude data root).
Proof.
  unfold parseInclude.
  repeat (case_match; try apply keepsWalk_throw; try apply keepsWalk_throwError;
          try apply keepsWalk_ret).
Qed.

Section KeepFacts.
Context {E : Externals}.

Lemma keepsWalk_visitToken getRec visitRec t root :
  (∀ p, keepsLib (getRec p)) → (∀ a b, keepsWalk (visitRec a b)) →
  keepsWalk (visitToken getRec visitRec t root).
Proof.
  intros Hg Hv. unfold visitToken.
  assert (Hpush : ∀ x, keepsWalk (push x)) by (intros x; by apply keepsWalk_modify).
  destruct (type t); try apply Hpush; try apply keepsWalk_ret.
  destruct (Re.exec Pat.directive (JS.chars (data t))); [|apply keepsWalk_throw].
  case_bool_decide; [apply Hpush|].
  case_bool_decide; [|apply Hpush].
  apply keepsWalk_bind; [apply keepsWalk_parseInclude|]. intros inc.
  apply keepsWalk_bind; [by apply keepsWalk_onLib|]. intros shader.
  apply keepsWalk_bind; [|intros _; by apply keepsWalk_modify].
  destruct shader as [text|]; [|apply keepsWalk_throwError].
  destruct (JS.truthy text); [|apply keepsWalk_throwError].
  apply keepsWalk_bind; [by apply keepsWalk_modify|]. intros _. apply Hv.
Qed.

Lemma keepsWalk_visit getRec visitRec source root :
  (∀ p, keepsLib (getRec p)) → (∀ a b, keepsWalk (visitRec a b)) →
  keepsWalk (visit getRec visitRec source root).
Proof.
  intros Hg Hv. unfold visit.
  apply keepsWalk_bind; [apply keepsWalk_gets|]. intros v.
  induction (glslTokenize source v) as [|t more IH]; simpl.
  - apply keepsWalk_ret.
  - apply keepsWalk_bind; [by apply keepsWalk_visitToken|]. by intros _.
Qed.

Lemma keepsLib_compileWith v name source :
  (∀ a b, keepsWalk (v a b)) → keepsLib (compileWith v name source).
Proof.
  intros Hv l. unfold compileWith.
  destruct (if negb (truthyO source) && truthyO name then _ else _) as [n [src|]];
    [|apply cacheGrows_refl].
  destruct (JS.truthy src) eqn:Hs; simpl; [|apply cacheGrows_refl].
  unfold bind at 1, gets at 1.
  destruct (truthyO (cache l !! hashString src)); [apply cacheGrows_refl|].
  unfold bind at 1. unfold processWith.
  match goal with |- context [v ?a ?b ?w] => specialize (Hv a b w); destruct (v a b w) end;
    simpl in *; [|done..].
  unfold bind, gets, modify, ret. simpl.
  eapply cacheGrows_trans; [done|apply cacheGrows_setCache].
Qed.

Lemma keepsLib_getWith c path :
  (∀ n s, keepsLib (c n s)) → keepsLib (getWith c path).
Proof.
  intros Hc l. unfold getWith, bind, gets.
  destruct (store l !! path); [apply Hc|apply cacheGrows_refl].
Qed.

Lemma engine_keeps (fuel : nat) :
  (∀ name source, keepsLib (runCompile (engine fuel) name source)) ∧
  (∀ a b, keepsWalk (runVisit (engine fuel) a b)).
Proof.
  induction fuel as [|fuel [IHc IHv]]; [by split|].
  assert (Hv : ∀ a b, keepsWalk (runVisit (engine (S fuel)) a b)).
  { intros a b. simpl. apply keepsWalk_visit; [|done].
    intros p. by apply keepsLib_getWith. }
  split; [|done]. intros name source. simpl.
  apply keepsLib_compileWith. apply Hv.
Qed.

(** X17. Whether it returns or throws, [compile] leaves the store, the define
    table, the version, the precision and the middleware of the library
    as they are and takes no entry out of the cache; so does [get]. *)
Theorem compile_only_grows_cache (fuel : nat) (name source : option string)
        (path : string) (l : ShaderLib) :
  match compile fuel name source l with
  | Ret _ l' | Throw _ l' => cacheGrows l l'
  | OutOfFuel => True
  end ∧
  match get fuel path l with
  | Ret _ l' | Throw _ l' => cacheGrows l l'
  | OutOfFuel => True
  end.
Proof.
  destruct (engine_keeps fuel) as [Hc _]. split; [apply Hc|].
  by apply keepsLib_getWith.
Qed.

End KeepFacts.

(** ** The budget of nested calls *)

Lemma extendsM_refl {St A} (c : M St A) : extendsM c c.
Proof. intros s. by right. Qed.

Lemma extendsM_bind {St A B} (c1 c2 : M St A) (f1 f2 : A → M St B) :
  extendsM c1 c2 → (∀ a, extendsM (f1 a) (f2 a)) →
  extendsM (bind c1 f1) (bind c2 f2).
Proof.
  intros Hc Hf s. unfold bind. destruct (Hc s) as [-> | ->]; [by left|].
  destruct (c2 s) as [a s'| |]; [apply Hf|by right..].
Qed.

Lemma extendsM_onLib {A} (c1 c2 : M ShaderLib A) :
  extendsM c1 c2 → extendsM (onLib c1) (onLib c2).
Proof.
  intros Hc w. unfold onLib, zoom. destruct (Hc (lib w)) as [-> | ->]; [by left|by right].
Qed.

Section BudgetFacts.
Context {E : Externals}.

Lemma extendsM_visitToken g1 g2 v1 v2 t root :
  (∀ p, extendsM (g1 p) (g2 p)) → (∀ a b, extendsM (v1 a b) (v2 a b)) →
  extendsM (visitToken g1 v1 t root) (visitToken g2 v2 t root).
Proof.
  intros Hg Hv. unfold visitToken.
  destruct (type t); try apply extendsM_refl.
  destruct (Re.exec Pat.directive (JS.chars (data t))); [|apply extendsM_refl].
  case_bool_decide; [apply extendsM_refl|].
  case_bool_decide; [|apply extendsM_refl].
  apply extendsM_bind; [apply extendsM_refl|]. intros inc.
  apply extendsM_bind; [by apply extendsM_onLib|]. intros shader.
  apply extendsM_bind; [|intros _; apply extendsM_refl].
  destruct shader as [text|]; [|apply extendsM_refl].
  destruct (JS.truthy text); [|apply extendsM_refl].
  apply extendsM_bind; [apply extendsM_refl|]. intros _. apply Hv.
Qed.

Lemma extendsM_visit g1 g2 v1 v2 source root :
  (∀ p, extendsM (g1 p) (g2 p)) → (∀ a b, extendsM (v1 a b) (v2 a b)) →
  extendsM (visit g1 v1 source root) (visit g2 v2 source root).
Proof.
  intros Hg Hv. unfold visit.
  apply extendsM_bind; [apply extendsM_refl|]. intros v.
  induction (glslTokenize source v) as [|t more IH]; simpl.
  - apply extendsM_refl.
  - apply extendsM_bind; [by apply extendsM_visitToken|]. by intros _.
Qed.

Lemma extendsM_processWith v1 v2 name source :
  (∀ a b, extendsM (v1 a b) (v2 a b)) →
  extendsM (processWith v1 name source) (processWith v2 name source).
Proof.
  intros Hv l. unfold processWith.
  match goal with
  | |- context [v1 ?a ?b ?w] => destruct (Hv a b w) as [Ho|Ho]; rewrite Ho
  end; [by left|by right].
Qed.

Lemma extendsM_compileWith v1 v2 name source :
  (∀ a b, extendsM (v1 a b) (v2 a b)) →
  extendsM (compileWith v1 name source) (compileWith v2 name source).
Proof.
  intros Hv. unfold compileWith.
  destruct (if negb (truthyO source) && truthyO name then _ else _) as [n [src|]];
    [|apply extendsM_refl].
  destruct (negb (JS.truthy src)); [apply extendsM_refl|].
  apply extendsM_bind; [apply extendsM_refl|]. intros hit.
  destruct (truthyO hit); [apply extendsM_refl|].
  apply extendsM_bind; [by apply extendsM_processWith|]. intros ?.
  apply extendsM_refl.
Qed.

Lemma extendsM_getWith c1 c2 path :
  (∀ n s, extendsM (c1 n s) (c2 n s)) →
  extendsM (getWith c1 path) (getWith c2 path).
Proof.
  intros Hc. unfold getWith.
  apply extendsM_bind; [apply extendsM_refl|]. intros [src|]; [apply Hc|apply extendsM_refl].
Qed.

Lemma engine_extends (fuel : nat) :
  (∀ name source, extendsM (runCompile (engine fuel) name source)
                           (runCompile (engine (S fuel)) name source)) ∧
  (∀ a b, extendsM (runVisit (engine fuel) a b) (runVisit (engine (S fuel)) a b)).
Proof.
  induction fuel as [|fuel [IHc IHv]].
  - split; intros; intros s; by left.
  - assert (Hv : ∀ a b, extendsM (runVisit (engine (S fuel)) a b)
                                  (runVisit (engine (S (S fuel))) a b)).
    { intros a b. apply extendsM_visit; [|done].
      intros p. by apply extendsM_getWith. }
    split; [|done]. intros name source.
    by apply extendsM_compileWith.
Qed.

(** The outcome of [compile] does not depend on the budget of nested calls
    once the budget suffices: what it returns or throws under one budget
    it returns or throws under every larger one. *)
Lemma compile_budget (fuel fuel' : nat) (name source : option string)
      (l : ShaderLib) :
  (fuel ≤ fuel')%nat →
  compile fuel name source l ≠ OutOfFuel →
  compile fuel' name source l = compile fuel name source l.
Proof.
  intros Hle Hne. induction Hle as [|fuel' Hle IH]; [done|].
  destruct (engine_extends fuel') as [Hc _].
  destruct (Hc name source l) as [Hout|Heq].
  - exfalso. apply Hne. rewrite <- IH. exact Hout.
  - unfold compile in *. by rewrite <- Heq.
Qed.

End BudgetFacts.

(** ** A fragment that includes itself *)

Lemma visitToken_loop getRec visitRec (line : nat) (root : string) (w : Walk) :
  getRec "loop" (lib w) = OutOfFuel →
  visitToken getRec visitRec (mkToken kGLSLTokenPreprocecsor loopSource line) root w
  = OutOfFuel.
Proof.
  intros H. vm_compute. vm_compute in H. by rewrite H.
Qed.

(** X19. The walk has no guard against a cycle of includes: [get] of a
    fragment that includes itself does not return, whatever the budget of
    nested calls is. *)
Theorem self_include_never_returns (fuel : nat) (l : ShaderLib) :
  store l !! "loop" = Some loopSource →
  truthyO (cache l !! hashString loopSource) = false →
  defines l = ∅ →
  get (E:=Ref.externals) fuel "loop" l = OutOfFuel.
Proof.
  intros Hst Hc Hd. induction fuel as [|fuel IH].
  - unfold get, getWith, bind, gets. by rewrite Hst.
  - unfold get, getWith, bind, gets. rewrite Hst.
    rewrite compile_S, compileWith_miss by done.
    assert (processWith (E:=Ref.externals)
              (runVisit (engine (E:=Ref.externals) (S fuel)))
              (workingName (Some "loop"))
              (injectShaderNameDefine (workingName (Some "loop")) loopSource) l
            = OutOfFuel) as ->; [|done].
    unfold processWith. simpl injectDefines. rewrite Hd.
    change (runVisit (engine (E:=Ref.externals) (S fuel)))
      with (visit (E:=Ref.externals)
              (getWith (runCompile (engine (E:=Ref.externals) fuel)))
              (runVisit (engine (E:=Ref.externals) fuel))).
    unfold visit, bind at 1, gets at 1. simpl glslTokenize.
    match goal with
    | |- context [Ref.tokenize ?s ?v] =>
        change (Ref.tokenize s v)
          with [mkToken kGLSLTokenWhitespace NL 2;
                mkToken kGLSLTokenPreprocecsor loopSource 2;
                mkToken kGLSLTokenWhitespace NL 3;
                mkToken kGLSLTokenEOF "(eof)" 3]
    end.
    simpl visitTokens. unfold bind at 1.
    change (visitToken _ _ (mkToken kGLSLTokenWhitespace NL 2) _ (mkWalk l [] []))
      with (Ret tt (mkWalk l [mkToken kGLSLTokenWhitespace NL 2] []) : outcome Walk unit).
    unfold bind at 1. rewrite visitToken_loop; [done|]. apply IH.
Qed.

Lemma self_include_never_returns_witness :
  get (E:=Ref.externals) 1000 "loop" loopLib = OutOfFuel.
Proof.
  apply (self_include_never_returns 1000 loopLib); reflexivity.
Defined.

(** ** Nested objects of fragments *)

Lemma Scope_nested_ind (P : Scope → Prop) :
  (∀ source, P (Leaf source)) →
  (∀ entries, Forall (fun kv => P (snd kv)) entries → P (Nested entries)) →
  ∀ scope, P scope.
Proof.
  intros HL HN. fix IH 1. intros [source|entries]; [apply HL|].
  apply HN. induction entries as [|[k v] es IHes]; constructor; [apply IH|apply IHes].
Qed.

(** X20. [add] of a nested object adds its leaves and nothing else, one [add]
    for each leaf, depth first, under the keys of the leaf joined by a
    slash. *)
Theorem walk_flatten (scope : Scope) (stack : list string) (l : ShaderLib) :
  walk stack scope l =
  fold_left (fun l kv => add (fst kv) (snd kv) l) (flatten stack scope) l.
Proof.
  revert stack l. induction scope as [source|entries IH] using Scope_nested_ind;
    intros stack l; [done|].
  simpl. revert l. induction entries as [|[k v] es IHes]; intros l; [done|].
  apply Forall_cons in IH as [Hv Hes]. simpl in Hv.
  rewrite fold_left_app, <- Hv. by apply IHes.
Qed.

(** ** An include that is not in the store *)

Section MissingFacts.
Context {E : Externals}.
Variable getRec : string → M ShaderLib (option string).
Variable visitRec : string → string → M Walk unit.

(** X21. An [#include] of a path for which [get] returns [null] stops the walk
    with a reference error that names the argument as it was written and
    lists the include stack, to which the include has not been added. *)
Theorem include_missing_is_reference_error (t : Token) (root : string)
        (w : Walk) (inc : Include) (l' : ShaderLib) :
  type t = kGLSLTokenPreprocecsor →
  directiveOf t = Some "#include" →
  parseInclude (data t) root w = Ret inc w →
  getRec (incResolved inc) (lib w) = Ret None l' →
  visitToken getRec visitRec t root w
  = Throw (referenceErrorAt (incArg inc) (includeStack w))
          (mkWalk l' (stack w) (includeStack w)).
Proof.
  intros Ht Hd Hp Hg. unfold visitToken, directiveOf in *. rewrite Ht.
  destruct (Re.exec Pat.directive (JS.chars (data t))) as [res|]; [|done].
  simpl in Hd. injection Hd as Hd. rewrite Hd.
  change (bool_decide ("#include" = "#define")) with false.
  change (bool_decide ("#include" = "#include")) with true. cbv iota.
  rewrite (bind_Ret _ _ _ _ _ Hp).
  unfold bind at 1, onLib at 1, zoom. rewrite Hg.
  unfold bind, throwError, createError, gets, ret. done.
Qed.

End MissingFacts.

Lemma include_missing_is_reference_error_witness :
  visitToken (getWith (compile (E:=Ref.externals) 1)) (fun _ _ => ret tt)
    (mkToken kGLSLTokenPreprocecsor "#include <light/ambient>" 7) "mat"
    (mkWalk emptyLib [] ["mat/flat:2"])
  = Throw (referenceErrorAt
             (incArg (mkInclude "<light/ambient>" "light/ambient" "/" "light/ambient"))
             (includeStack (mkWalk emptyLib [] ["mat/flat:2"])))
          (mkWalk emptyLib (stack (mkWalk emptyLib [] ["mat/flat:2"]))
             (includeStack (mkWalk emptyLib [] ["mat/flat:2"]))).
Proof.
  apply (include_missing_is_reference_error
           (getWith (compile (E:=Ref.externals) 1)) (fun _ _ => ret tt)
           (mkToken kGLSLTokenPreprocecsor "#include <light/ambient>" 7) "mat"
           (mkWalk emptyLib [] ["mat/flat:2"])
           (mkInclude "<light/ambient>" "light/ambient" "/" "light/ambient")
           emptyLib); by vm_compute.
Defined.

(** ** The include stack *)

Lemma balanced_ret {A} (a : A) : balanced (ret a).
Proof. intros w. by split. Qed.

Lemma balanced_bind {A B} (c : M Walk A) (f : A → M Walk B) :
  balanced c → (∀ a, balanced (f a)) → balanced (bind c f).
Proof.
  intros Hc Hf w. unfold bind. specialize (Hc w).
  destruct (c w) as [a w'| |]; [|done..].
  specialize (Hf a w'). destruct (f a w') as [b w''| |]; [|done..].
  destruct Hc as [Hc1 Hc2], Hf as [Hf1 Hf2]. split; [congruence|by etrans].
Qed.

Lemma balanced_push t : balanced (push t).
Proof. intros w. simpl. split; [done|]. by apply prefix_app_r. Qed.

Section StackFacts.
Context {E : Externals}.

Lemma balanced_visitToken getRec visitRec t root :
  (∀ a b, balanced (visitRec a b)) →
  balanced (visitToken getRec visitRec t root).
Proof.
  intros Hv. unfold visitToken.
  destruct (type t); try apply balanced_push; try apply balanced_ret.
  destruct (Re.exec Pat.directive (JS.chars (data t))); [|done].
  case_bool_decide; [apply balanced_push|].
  case_bool_decide; [|apply balanced_push].
  intros w. unfold bind at 1.
  destruct (parseInclude (data t) root w) as [inc w1| |] eqn:Hp; [|done..].
  apply parseInclude_ret in Hp as [-> _].
  unfold bind at 1, onLib, zoom.
  destruct (getRec (incResolved inc) (lib w)) as [shader l1| |]; [|done..].
  destruct shader as [text|]; [|done].
  destruct (JS.truthy text); [|done].
  unfold bind, pushInclude, popInclude, modify. simpl.
  match goal with |- context [visitRec ?a ?b ?w0] =>
    specialize (Hv a b w0); destruct (visitRec a b w0) as [u w2| |] end; [|done..].
  simpl in *. destruct Hv as [Hv1 Hpre]. split; [|done].
  rewrite Hv1. by rewrite removelast_last.
Qed.

Lemma balanced_visit getRec visitRec source root :
  (∀ a b, balanced (visitRec a b)) →
  balanced (visit getRec visitRec source root).
Proof.
  intros Hv. unfold visit.
  apply balanced_bind; [intros w; by split|]. intros v.
  induction (glslTokenize source v) as [|t more IH]; simpl.
  - apply balanced_ret.
  - apply balanced_bind; [by apply balanced_visitToken|]. by intros _.
Qed.

(** X22. Every include is taken off the include stack when its walk returns:
    a walk that returns leaves the include stack as it found it, and has
    only added tokens behind those that were on the token stack. *)
Theorem visit_balances_include_stack (fuel : nat) (source root : string) (w : Walk) :
  match runVisit (engine fuel) source root w with
  | Ret _ w' => includeStack w' = includeStack w ∧ stack w `prefix_of` stack w'
  | _ => True
  end.
Proof.
  revert source root w. induction fuel as [|fuel IH]; intros source root w; [done|].
  simpl. by apply balanced_visit.
Qed.

End StackFacts.

(** ** The constructor *)

Lemma walk_keeps (scope : Scope) (stack : list string) (l : ShaderLib) :
  let l' := walk stack scope l in
  cache l' = cache l ∧ defines l' = defines l ∧ version l' = version l ∧
  precision l' = precision l ∧ middleware l' = middleware l.
Proof.
  revert stack l. induction scope as [source|entries IH] using Scope_nested_ind;
    intros stack l; [done|].
  simpl. revert l. induction entries as [|[k v] es IHes]; intros l; [done|].
  apply Forall_cons in IH as [Hv Hes]. simpl in Hv.
  destruct (IHes Hes (walk (stack ++ [k]) v l)) as (->&->&->&->&->).
  apply Hv.
Qed.

(** X23. A new library has an empty cache, the defines it was given, coerced
    like [define] coerces them, and the default version and precision
    where none was given; the fragments it is given go to the store
    only. *)
Theorem newShaderLib_state (libglsl : list (string * Scope)) (o : ShaderLibOptions) :
  NoDup (optDefines o).*1 →
  let l := newShaderLib libglsl o in
  cache l = ∅ ∧
  defines l = tableAfter (optDefines o) ∅ ∧
  version l = (match optVersion o with
               | Some v => if JS.truthy v then v else kDefaultShaderLibVersion
               | None => kDefaultShaderLibVersion
               end) ∧
  precision l = default kDefaultShaderLibPrecision (optPrecision o) ∧
  middleware l = default [] (optMiddleware o).
Proof.
  intros Hnd l. subst l. unfold newShaderLib, addScope.
  match goal with |- context [walk ?st ?sc ?l0] =>
    destruct (walk_keeps sc st l0) as (->&->&->&->&->) end.
  match goal with |- context [define (KObject ?es) ?v ?l0] =>
    destruct (defineEntries_spec es l0 Hnd) as (l' & Hd & (Hc&_&Hve&Hp&Hm) & Hdef);
    assert (define (KObject es) v l0 = Ret (existsb (fun b => b) (map (changesTable (defines l0)) es)) l')
      as -> by (simpl; unfold bind; by rewrite Hd)
  end.
  rewrite Hc, Hdef, Hve, Hp, Hm. done.
Qed.


Lemma newShaderLib_state_witness :
  let l := newShaderLib [("mesh", Nested [("vertex", Leaf "void main() {}")])]
             (mkShaderLibOptions None None (Some "") [("HAS_MAP", VBool true)] []) in
  cache l = ∅ ∧
  defines l = tableAfter [("HAS_MAP", VBool true)] ∅ ∧
  version l = kDefaultShaderLibVersion ∧
  precision l = kDefaultShaderLibPrecision ∧
  middleware l = [].
Proof.
  apply (newShaderLib_state [("mesh", Nested [("vertex", Leaf "void main() {}")])]
           (mkShaderLibOptions None None (Some "") [("HAS_MAP", VBool true)] [])).
  simpl. repeat constructor; set_solver.
Defined.
